(** * goup: selection parser, filter/sort policy, update orchestrator

    A shallow embedding of the core of goup (the Go dependency updater):
    - [internal/dependency]: [FilterDependencies], [sortDependencies];
    - [internal/selector]: [ParseSelection], [parseRange], [matchPattern],
      [matchesPattern], [containsDependency] and the interactive [Select];
    - [internal/updater]: [UpdateDependencies];
    - [internal/app]: [updateWithProgress].

    Go strings are byte sequences: they are modelled by [string], whose
    characters are the 256 values of [ascii].  Go's [int] is modelled by [Z];
    the only place where its 64-bit range matters is [strconv.Atoi], which
    rejects numerals outside that range.

    The file has two parts: first every definition (the Go library functions
    the code calls, then the packages of the repository, then the concrete
    instances used to run the code on examples), then the theorems. *)

From Stdlib Require Import String Ascii List ZArith Bool Lia.
From Stdlib Require Import Permutation Sorted OrdersEx RelationClasses.
From Stdlib Require Import DecimalString.
Import ListNotations.

Local Open Scope string_scope.
Local Open Scope list_scope.
Local Open Scope Z_scope.

(* ================================================================= *)
(** * Part I: definitions *)

(* ----------------------------------------------------------------- *)
(** ** The Go standard library, as far as the code uses it *)

(** Package [strings], the byte-level functions.  [Split] is only ever called
    by the code with the one-byte separators [","], ["-"] and ["*"]; the
    empty separator (which Go treats specially, exploding the string into
    UTF-8 sequences) is outside this model. *)
Module strings.

(** [s[n:]] *)
Fixpoint drop (n : nat) (s : string) : string :=
  match n, s with
  | O, _ => s
  | S _, EmptyString => EmptyString
  | S n', String _ s' => drop n' s'
  end.

(** [s[:n]] *)
Fixpoint take (n : nat) (s : string) : string :=
  match n, s with
  | O, _ => EmptyString
  | S _, EmptyString => EmptyString
  | S n', String c s' => String c (take n' s')
  end.

Definition HasPrefix (s pre : string) : bool := String.prefix pre s.

(** Position of the first occurrence of [substr] in [s], if any. *)
Fixpoint index_opt (s substr : string) : option nat :=
  if HasPrefix s substr then Some O
  else match s with
       | EmptyString => None
       | String _ s' => option_map S (index_opt s' substr)
       end.

(** [strings.Index]: the position of the first occurrence, or [-1]. *)
Definition Index (s substr : string) : Z :=
  match index_opt s substr with
  | Some n => Z.of_nat n
  | None => -1
  end.

(** [strings.Contains] is [Index(s, substr) >= 0]. *)
Definition Contains (s substr : string) : bool := 0 <=? Index s substr.

(** The loop of [strings.genSplit]: cut at each occurrence of [sep] in turn.
    Every cut removes at least one byte, so [length s] rounds are enough. *)
Fixpoint genSplit (fuel : nat) (s sep : string) : list string :=
  match fuel with
  | O => [s]
  | S fuel' =>
      match index_opt s sep with
      | None => [s]
      | Some i => take i s :: genSplit fuel' (drop (i + String.length sep) s) sep
      end
  end.

Definition Split (s sep : string) : list string :=
  genSplit (String.length s) s sep.

End strings.

(** [strings.ToLower] and [strings.TrimSpace] depend on Unicode tables (case
    mapping and the white-space property of every code point) that are not
    part of this repository: the code is embedded over any implementation of
    the two. *)
Class UnicodeStrings := {
  ToLower : string -> string;
  TrimSpace : string -> string
}.

(** Package [strconv]. *)
Module strconv.

Definition max_int : Z := 2 ^ 63 - 1.
Definition min_int : Z := - 2 ^ 63.

Definition is_digit (c : ascii) : bool :=
  let n := Z.of_nat (nat_of_ascii c) in (48 <=? n) && (n <=? 57).

(** Base-10 digits only: no underscores, no base prefixes. *)
Fixpoint digits (s : string) (acc : Z) : option Z :=
  match s with
  | EmptyString => Some acc
  | String c s' =>
      if is_digit c
      then digits s' (acc * 10 + (Z.of_nat (nat_of_ascii c) - 48))
      else None
  end.

(** [strconv.Atoi]: an optional sign, then at least one decimal digit; the
    value has to fit a 64-bit [int].  [None] stands for a non-nil error (the
    code only ever tests the error against [nil]). *)
Definition Atoi (s : string) : option Z :=
  let '(neg, body) :=
    match s with
    | String "-"%char r => (true, r)
    | String "+"%char r => (false, r)
    | _ => (false, s)
    end in
  match body with
  | EmptyString => None
  | _ =>
      match digits body 0 with
      | None => None
      | Some n =>
          let v := if neg then - n else n in
          if (min_int <=? v) && (v <=? max_int) then Some v else None
      end
  end.

(** [strconv.Itoa], which is also what the verb [%d] of [fmt] prints for an
    [int]: the decimal digits, with a minus sign for a negative number. *)
Definition Itoa (n : Z) : string := NilZero.string_of_int (Z.to_int n).

End strconv.

(** Package [sort]: [sort.Slice(x, less)] reorders the slice in place; its
    algorithm (pattern-defeating quicksort) is not part of this repository.
    The comparison is given on indices in Go and on the elements here. *)
Class Sorter :=
  sort_Slice : forall A : Type, (A -> A -> bool) -> list A -> list A.

(** What [less] has to be for [sort.Slice] to sort (Go: "a transitive
    ordering" whose incomparability is transitive too). *)
Definition strict_weak_order {A : Type} (less : A -> A -> bool) : Prop :=
  (forall a, less a a = false) /\
  (forall a b c, less a b = true -> less b c = true -> less a c = true) /\
  (forall a b c, less a b = false -> less b c = false -> less a c = false).

(** [l] is in the order [less] asks for: no element is [less] than one that
    stands before it. *)
Definition sorted_by {A : Type} (less : A -> A -> bool) (l : list A) : Prop :=
  StronglySorted (fun a b => less b a = false) l.

(** The documented contract of [sort.Slice]: the result has the same elements
    and is sorted.  Nothing is promised about the order of elements that
    compare equal ("the sort is not guaranteed to be stable"). *)
Definition sort_Slice_contract `{Sorter} : Prop :=
  forall (A : Type) (less : A -> A -> bool) (l : list A),
    Permutation l (sort_Slice A less l) /\
    (strict_weak_order less -> sorted_by less (sort_Slice A less l)).

(** [len(x)], an [int]. *)
Definition len {A : Type} (l : list A) : Z := Z.of_nat (length l).

(** Go's [error] values.  The environment's errors (a failed read of the
    input, a failed command) are opaque messages; every error the code builds
    with [fmt.Errorf] is a constructor that carries the arguments of its
    format string.  [RuntimePanic] stands for an index out of range, which in
    Go aborts the program instead of returning. *)
Inductive error : Type :=
| ErrExternal (msg : string)
| ErrReadingInput (err : error)             (* "reading input: %w" *)
| ErrNumberOutOfRange (num n : Z)           (* "number %d is out of range (1-%d)" *)
| ErrNoPatternMatch (part : string)         (* "no dependencies match pattern: %s" *)
| ErrInvalidRangeFormat (part : string)     (* "invalid range format: %s" *)
| ErrInvalidStart (token : string)          (* "invalid start number in range: %s" *)
| ErrInvalidEnd (token : string)            (* "invalid end number in range: %s" *)
| ErrRangeOutOfBounds (start stop n : Z)    (* "range %d-%d is out of bounds (1-%d)" *)
| RuntimePanic.

(** A Go result [(T, error)] of which exactly one side is meaningful. *)
Inductive result (A : Type) : Type :=
| Ok (a : A)
| Err (e : error).
Arguments Ok {A} a.
Arguments Err {A} e.

(** The arguments of a format string. *)
Inductive fmt_arg : Type :=
| ArgInt (n : Z)
| ArgString (s : string)
| ArgError (e : error).

(* ----------------------------------------------------------------- *)
(** ** Package [internal/dependency] *)

Module dependency.

Record Dependency : Type := {
  Path : string;
  Version : string;
  NewVersion : string;
  Indirect : bool;
  HasUpdate : bool
}.

(** [FilterDependencies]: the input itself when indirect dependencies are
    included, else the loop that appends every direct one. *)
Definition FilterDependencies (deps : list Dependency) (includeIndirect : bool)
  : list Dependency :=
  if includeIndirect then deps
  else fold_left
         (fun filtered dep =>
            if negb (Indirect dep) then filtered ++ [dep] else filtered)
         deps [].

(** The comparison of [sortDependencies]. *)
Definition sortDependencies_less (depA depB : Dependency) : bool :=
  if negb (Bool.eqb (Indirect depA) (Indirect depB))
  then negb (Indirect depA)
  else String.ltb (Path depA) (Path depB).

Definition sortDependencies `{Sorter} (deps : list Dependency) : list Dependency :=
  sort_Slice Dependency sortDependencies_less deps.

(** One decoded object of the output of [go list -u -m -json all]. *)
Record Module_ : Type := {
  mod_Path : string;
  mod_Version : string;
  mod_Indirect : bool;
  mod_Main : bool;
  mod_Update : option (string * string)     (* Path, Version *)
}.

(** [GetUpdatableDependencies], from the decoded modules on: running the
    command and decoding its JSON output belong to the environment. *)
Definition GetUpdatableDependencies `{Sorter} (modules : list Module_)
  : list Dependency :=
  let updatableDeps :=
    fold_left
      (fun acc module =>
         if mod_Main module then acc
         else if (mod_Version module =? "")%string then acc
         else match mod_Update module with
              | Some (_, newVersion) =>
                  acc ++ [ {| Path := mod_Path module;
                              Version := mod_Version module;
                              NewVersion := newVersion;
                              Indirect := mod_Indirect module;
                              HasUpdate := true |} ]
              | None => acc
              end)
      modules [] in
  sortDependencies updatableDeps.

(** The earlier revision of the manager (the second text of
    [internal/dependency/manager.go]) sorted by path alone. *)
Definition byPath_less (depA depB : Dependency) : bool :=
  String.ltb (Path depA) (Path depB).

Definition sortByPath `{Sorter} (deps : list Dependency) : list Dependency :=
  sort_Slice Dependency byPath_less deps.

(** [Dependency.VersionInfo]: the version, with the update when one is
    known. *)
Definition VersionInfo (d : Dependency) : string :=
  if HasUpdate d && negb (NewVersion d =? "")%string
  then (Version d ++ " → " ++ NewVersion d)%string
  else Version d.

(** [Dependency.String] (the name [String] is taken by the strings). *)
Definition Dependency_String (d : Dependency) : string :=
  let suffix := if Indirect d then " (indirect)" else "" in
  if HasUpdate d && negb (NewVersion d =? "")%string
  then (Path d ++ "@" ++ Version d ++ " → " ++ NewVersion d ++ suffix)%string
  else (Path d ++ "@" ++ Version d ++ suffix)%string.

(** [Manager], the interface the application calls; reading the manifest
    and asking for updates act on the outside world [W]. *)
Class Manager (W : Type) : Type := {
  manager_GetDependencies : W -> result (list Dependency) * W;
  manager_FilterDependencies : list Dependency -> bool -> list Dependency;
  manager_GetUpdatableDependencies : W -> result (list Dependency) * W
}.

End dependency.

(* ----------------------------------------------------------------- *)
(** ** Package [internal/selector] *)

Module selector.
Import dependency.

Record SelectionResult : Type := {
  Selected : list Dependency;
  Cancelled : bool;
  Error : option error
}.

(** [UIInterface], over a state [W] of the outside world.  The methods are
    prefixed with [ui_] ([ui_Error] is [s.ui.Error]). *)
Class UIInterface (W : Type) : Type := {
  ui_Info : string -> list fmt_arg -> W -> W;
  ui_Success : string -> list fmt_arg -> W -> W;
  ui_Error : string -> list fmt_arg -> W -> W;
  ui_ReadInput : string -> W -> (string * option error) * W;
  ui_Confirm : string -> W -> bool * W;
  ui_PrintDependencies : list Dependency -> string -> W -> W
}.

(** [fmt.Println], which [showSelectionHelp] calls directly. *)
Class Stdout (W : Type) : Type :=
  fmt_Println : string -> W -> W.

(** [containsDependency]: is a record with this path already in the slice? *)
Fixpoint containsDependency (slice : list Dependency) (dep : Dependency) : bool :=
  match slice with
  | [] => false
  | item :: rest =>
      if (Path item =? Path dep)%string then true
      else containsDependency rest dep
  end.

(** The loop of [matchesPattern] over the pieces between the wildcards;
    [index] is the position in [path] reached so far. *)
Fixpoint matchesPattern_loop (parts : list string) (path : string) (index : Z)
  : bool :=
  match parts with
  | [] => true
  | part :: rest =>
      if (part =? "")%string then matchesPattern_loop rest path index
      else
        let newIndex := strings.Index (strings.drop (Z.to_nat index) path) part in
        if newIndex =? -1 then false
        else matchesPattern_loop rest path (index + (newIndex + Z.of_nat (String.length part)))
  end.

Definition matchesPattern (path pattern : string) : bool :=
  if negb (strings.Contains pattern "*") then strings.Contains path pattern
  else matchesPattern_loop (strings.Split pattern "*") path 0.

Section Parser.
Context `{UnicodeStrings}.

(** [matchPattern]: appends to [*selected] and returns [matched]. *)
Fixpoint matchPattern (pattern : string) (deps : list Dependency)
    (selected : list Dependency) (matched : bool) : bool * list Dependency :=
  match deps with
  | [] => (matched, selected)
  | dep :: rest =>
      if matchesPattern (ToLower (Path dep)) pattern then
        if negb (containsDependency selected dep)
        then matchPattern pattern rest (selected ++ [dep]) true
        else matchPattern pattern rest selected matched
      else matchPattern pattern rest selected matched
  end.

(** The loop of [parseRange]: [count] rounds from index [i] on. *)
Fixpoint parseRange_loop (count : nat) (i : Z) (deps rangeDeps : list Dependency)
  : result (list Dependency) :=
  match count with
  | O => Ok rangeDeps
  | S count' =>
      match nth_error deps (Z.to_nat i) with
      | Some dep => parseRange_loop count' (i + 1) deps (rangeDeps ++ [dep])
      | None => Err RuntimePanic
      end
  end.

Definition parseRange (part : string) (deps : list Dependency)
  : result (list Dependency) :=
  match strings.Split part "-" with
  | [token0; token1] =>
      match strconv.Atoi (TrimSpace token0) with
      | None => Err (ErrInvalidStart token0)
      | Some start =>
          match strconv.Atoi (TrimSpace token1) with
          | None => Err (ErrInvalidEnd token1)
          | Some stop =>
              if (start <? 1) || (stop >? len deps) || (start >? stop)
              then Err (ErrRangeOutOfBounds start stop (len deps))
              else parseRange_loop (Z.to_nat (stop - (start - 1))) (start - 1) deps []
          end
      end
  | _ => Err (ErrInvalidRangeFormat part)
  end.

(** The loop of [ParseSelection] over the comma-separated parts. *)
Fixpoint ParseSelection_loop (parts : list string) (deps selected : list Dependency)
  : result (list Dependency) :=
  match parts with
  | [] => Ok selected
  | part :: rest =>
      let part := TrimSpace part in
      if strings.Contains part "-" then
        match parseRange part deps with
        | Err e => Err e
        | Ok rangeDeps => ParseSelection_loop rest deps (selected ++ rangeDeps)
        end
      else
        match strconv.Atoi part with
        | Some num =>
            if (num <? 1) || (num >? len deps)
            then Err (ErrNumberOutOfRange num (len deps))
            else
              match nth_error deps (Z.to_nat (num - 1)) with
              | None => Err RuntimePanic
              | Some dep =>
                  if negb (containsDependency selected dep)
                  then ParseSelection_loop rest deps (selected ++ [dep])
                  else ParseSelection_loop rest deps selected
              end
        | None =>
            let '(matched, selected') := matchPattern part deps selected false in
            if negb matched then Err (ErrNoPatternMatch part)
            else ParseSelection_loop rest deps selected'
        end
  end.

Definition ParseSelection (input : string) (deps : list Dependency)
  : result (list Dependency) :=
  let input := ToLower (TrimSpace input) in
  if (input =? "all")%string then Ok deps
  else ParseSelection_loop (strings.Split input ",") deps [].

End Parser.

Section Selector.
Context {W : Type} `{UnicodeStrings} `{UIInterface W} `{Stdout W}.

Definition showSelectionHelp (w : W) : W :=
  let w := ui_Info "Selection options:" [] w in
  let w := fmt_Println "  • Enter numbers (e.g., 1,3,5 or 1-3 or 1,3-5)" w in
  let w := fmt_Println "  • Enter 'all' to select all dependencies" w in
  let w := fmt_Println "  • Enter package names or patterns (e.g., 'github.com/gin*')" w in
  let w := fmt_Println "  • Press Enter without input to cancel" w in
  fmt_Println "" w.

(** The [for] loop of [Select].  It has no bound in Go; here [fuel] bounds the
    number of prompts and [None] means that the bound was reached. *)
Fixpoint Select_loop (fuel : nat) (deps : list Dependency) (w : W)
  : option (SelectionResult * W) :=
  match fuel with
  | O => None
  | S fuel' =>
      let '((input, err), w) := ui_ReadInput "Select dependencies to update" w in
      match err with
      | Some e =>
          Some ({| Selected := []; Cancelled := false;
                   Error := Some (ErrReadingInput e) |}, w)
      | None =>
          let input := TrimSpace input in
          if (input =? "")%string then
            Some ({| Selected := []; Cancelled := true; Error := None |}, w)
          else
            match ParseSelection input deps with
            | Err e =>
                let w := ui_Error "Invalid selection: %v" [ArgError e] w in
                Select_loop fuel' deps w
            | Ok selected =>
                if len selected =? 0 then
                  let w := ui_Error "No dependencies matched your selection" [] w in
                  Select_loop fuel' deps w
                else
                  let w := ui_Success "Selected %d dependencies:" [ArgInt (len selected)] w in
                  let w := ui_PrintDependencies selected "" w in
                  let '(ok, w) := ui_Confirm "Proceed with these selected dependencies?" w in
                  if ok then
                    Some ({| Selected := selected; Cancelled := false; Error := None |}, w)
                  else
                    let w := ui_Info "Let's try again..." [] w in
                    Select_loop fuel' deps w
            end
      end
  end.

Definition Select (fuel : nat) (deps : list Dependency) (includeIndirect : bool)
    (w : W) : option (SelectionResult * W) :=
  if len deps =? 0 then
    Some ({| Selected := []; Cancelled := false; Error := None |}, w)
  else
    let typeStr := if includeIndirect then "all" else "direct" in
    let w := ui_Info "Found %d %s dependencies with available updates:"
                     [ArgInt (len deps); ArgString typeStr] w in
    let w := ui_PrintDependencies deps "" w in
    let w := showSelectionHelp w in
    Select_loop fuel deps w.

End Selector.

(** [Selector], the interface the application calls.  [None] stands for a
    selection that does not return. *)
Class Selector (W : Type) : Type :=
  selector_Select : list Dependency -> bool -> W -> option (SelectionResult * W).

(** [interactiveSelector] implements it, here with a bound on the number of
    prompts. *)
Definition interactiveSelector {W : Type} `{UnicodeStrings} `{UIInterface W}
    `{Stdout W} (fuel : nat) : Selector W :=
  Select fuel.

End selector.

(* ----------------------------------------------------------------- *)
(** ** Package [internal/updater] *)

Module updater.

Record UpdateError : Type := {
  Dependency : dependency.Dependency;
  Error : error
}.

Record UpdateResult : Type := {
  Updated : list dependency.Dependency;
  Failed : list UpdateError;
  Success : bool
}.

(** [CommandRunner]: runs a command in the outside world [W]; [None] is the
    [nil] error. *)
Class CommandRunner (W : Type) : Type :=
  Run : string -> list string -> bool -> W -> option error * W.

(** [Updater], the interface the application calls. *)
Class Updater (W : Type) : Type := {
  updater_UpdateDependencies :
    list dependency.Dependency -> bool -> W -> UpdateResult * W;
  updater_RunModTidy : bool -> W -> option error * W
}.

Section GoUpdater.
Context {W : Type} `{CommandRunner W}.

(** The loop of [UpdateDependencies]: one [go get -u] per record, whatever
    the outcome of the ones before. *)
Fixpoint UpdateDependencies_loop (deps : list dependency.Dependency)
    (verbose : bool) (result : UpdateResult) (w : W) : UpdateResult * W :=
  match deps with
  | [] => (result, w)
  | dep :: rest =>
      let '(err, w) := Run "go" ["get"; "-u"; dependency.Path dep] verbose w in
      match err with
      | Some e =>
          UpdateDependencies_loop rest verbose
            {| Updated := Updated result;
               Failed := Failed result ++ [ {| Dependency := dep; Error := e |} ];
               Success := Success result |} w
      | None =>
          UpdateDependencies_loop rest verbose
            {| Updated := Updated result ++ [dep];
               Failed := Failed result;
               Success := Success result |} w
      end
  end.

Definition UpdateDependencies (deps : list dependency.Dependency)
    (verbose : bool) (w : W) : UpdateResult * W :=
  let '(result, w) :=
    UpdateDependencies_loop deps verbose
      {| Updated := []; Failed := []; Success := false |} w in
  ({| Updated := Updated result;
      Failed := Failed result;
      Success := (len (Failed result) =? 0) |}, w).

Definition RunModTidy (verbose : bool) (w : W) : option error * W :=
  Run "go" ["mod"; "tidy"] verbose w.

(** [goUpdater] implements [Updater]. *)
Definition goUpdater : Updater W := {|
  updater_UpdateDependencies := UpdateDependencies;
  updater_RunModTidy := RunModTidy
|}.

End GoUpdater.

End updater.

(* ----------------------------------------------------------------- *)
(** ** Package [internal/config] *)

Module config.

(** [Config], as [cmd/goup/main.go] fills it from the flags and as the
    application reads it ([List] is the flag [-list]). *)
Record Config : Type := {
  List : bool;
  Interactive : bool;
  Verbose : bool;
  NoColor : bool;
  All : bool;
  Selective : bool
}.

Definition ShouldIncludeIndirect (c : Config) : bool := All c.

Definition IsInteractiveMode (c : Config) : bool := Interactive c || Selective c.

End config.

(* ----------------------------------------------------------------- *)
(** ** Package [internal/ui] *)

Module ui.

(** [Console], over the outside world [W]; the methods are prefixed with
    [console_]. *)
Class Console (W : Type) : Type := {
  console_Header : W -> W;
  console_Info : string -> list fmt_arg -> W -> W;
  console_Success : string -> list fmt_arg -> W -> W;
  console_Warning : string -> list fmt_arg -> W -> W;
  console_Debug : string -> list fmt_arg -> W -> W;
  console_Error : string -> list fmt_arg -> W -> W;
  console_Progress : string -> list fmt_arg -> W -> W;
  console_ProgressBar : Z -> Z -> string -> W -> W;
  console_ReadInput : string -> W -> (string * option error) * W;
  console_Confirm : string -> W -> bool * W;
  console_PrintDependencies : list dependency.Dependency -> string -> W -> W;
  console_PrintUpdateResult : Z -> Z -> bool -> W -> W
}.

(** A console is a [selector.UIInterface]: the selector is built on it. *)
Definition as_UIInterface {W : Type} `{Console W} : selector.UIInterface W := {|
  selector.ui_Info := console_Info;
  selector.ui_Success := console_Success;
  selector.ui_Error := console_Error;
  selector.ui_ReadInput := console_ReadInput;
  selector.ui_Confirm := console_Confirm;
  selector.ui_PrintDependencies := console_PrintDependencies
|}.

(** [calculateMaxPathWidth]: the width of the path column, in bytes. *)
Definition calculateMaxPathWidth (deps : list dependency.Dependency) : Z :=
  let maxWidth :=
    fold_left
      (fun maxWidth dep =>
         let n := Z.of_nat (String.length (dependency.Path dep)) in
         if n >? maxWidth then n else maxWidth)
      deps 20 in
  if maxWidth >? 50 then 50 else maxWidth.

End ui.

(* ----------------------------------------------------------------- *)
(** ** Package [internal/app] *)

Module app.
Import updater.

(** The one method of [ui.Console] that [updateWithProgress] calls. *)
Class Console (W : Type) : Type :=
  ProgressBar : Z -> Z -> string -> W -> W.

Section App.
Context {W : Type} `{Updater W} `{Console W}.

(** First loop of [updateWithProgress]: every record is updated on its own,
    between two progress reports; [i] is the loop index. *)
Fixpoint updateWithProgress_each (i total : Z) (deps : list dependency.Dependency)
    (verbose : bool) (allResults : list UpdateResult) (w : W)
  : list UpdateResult * W :=
  match deps with
  | [] => (allResults, w)
  | dep :: rest =>
      let w := ProgressBar i total (dependency.Path dep) w in
      let '(singleResult, w) := updater_UpdateDependencies [dep] verbose w in
      let allResults := allResults ++ [singleResult] in
      let w := ProgressBar (i + 1) total (dependency.Path dep) w in
      updateWithProgress_each (i + 1) total rest verbose allResults w
  end.

(** Second loop: the single results are merged. *)
Definition updateWithProgress_merge (allResults : list UpdateResult) : UpdateResult :=
  fold_left
    (fun finalResult result =>
       {| Updated := Updated finalResult ++ Updated result;
          Failed := Failed finalResult ++ Failed result;
          Success := if negb (Success result) then false else Success finalResult |})
    allResults
    {| Updated := []; Failed := []; Success := true |}.

Definition updateWithProgress (deps : list dependency.Dependency) (verbose : bool)
    (w : W) : UpdateResult * W :=
  let '(allResults, w) := updateWithProgress_each 0 (len deps) deps verbose [] w in
  (updateWithProgress_merge allResults, w).

End App.

(** The methods of [App] that the claims do not need. *)
Module App.

(** What [Run] returns: an error handed on as it is, or the error of the
    selection wrapped ("dependency selection failed: %w"). *)
Inductive run_error : Type :=
| Plain (e : error)
| ErrSelectionFailed (e : error).

Section Application.
Context {W : Type} `{ui.Console W} `{dependency.Manager W}
        `{selector.Selector W} `{Updater W}.

(** The progress bar of the console. *)
Definition progress_console : Console W := ui.console_ProgressBar.

(** [fmt.Sprintf("Found %d %s dependencies with available updates:", n, typeStr)] *)
Definition found_title (n : Z) (typeStr : string) : string :=
  ("Found " ++ strconv.Itoa n ++ " " ++ typeStr
   ++ " dependencies with available updates:")%string.

Definition selectDependencies (cfg : config.Config)
    (deps : list dependency.Dependency) (w : W)
  : option (result (list dependency.Dependency) * W) :=
  if negb (config.Selective cfg) then
    let typeStr := if config.All cfg then "all" else "direct" in
    let title := found_title (len deps) typeStr in
    let w := ui.console_PrintDependencies deps title w in
    Some (Ok deps, w)
  else
    match selector.selector_Select deps (config.ShouldIncludeIndirect cfg) w with
    | None => None
    | Some (result, w) =>
        match selector.Error result with
        | Some e => Some (Err e, w)
        | None =>
            if selector.Cancelled result then Some (Ok [], w)
            else Some (Ok (selector.Selected result), w)
        end
    end.

Definition runModTidy (cfg : config.Config) (w : W) : option error * W :=
  let w := ui.console_Info "Running go mod tidy..." [] w in
  updater_RunModTidy (config.Verbose cfg) w.

Definition performUpdate (cfg : config.Config)
    (deps : list dependency.Dependency) (w : W) : option error * W :=
  let w := ui.console_Info "Updating dependencies..." [] w in
  let '(result, w) :=
    @updateWithProgress W _ progress_console deps (config.Verbose cfg) w in
  let w := ui.console_PrintUpdateResult (len (Updated result)) (len deps)
             (len (Failed result) >? 0) w in
  let w := fold_left
             (fun w failure =>
                ui.console_Error "Failed to update %s: %v"
                  [ArgString (dependency.Path (Dependency failure));
                   ArgError (Error failure)] w)
             (Failed result) w in
  let '(err, w) := runModTidy cfg w in
  let w := match err with
           | Some e => ui.console_Warning "go mod tidy failed: %v" [ArgError e] w
           | None => ui.console_Success "go mod tidy completed" [] w
           end in
  let w :=
    if len (Updated result) >? 0 then
      let w := ui.console_Success "Dependency update completed!" [] w in
      if len (Failed result) >? 0 then
        ui.console_Info "Successfully updated %d out of %d dependencies"
          [ArgInt (len (Updated result)); ArgInt (len deps)] w
      else w
    else if len (Failed result) >? 0 then
      ui.console_Warning "No dependencies were successfully updated due to errors" [] w
    else w in
  (None, w).

(** [Run].  Like the selection it may start, it need not return ([None]). *)
Definition Run (cfg : config.Config) (w : W) : option (option run_error * W) :=
  let w := ui.console_Header w in
  let w :=
    if config.Verbose cfg then
      let w := if config.List cfg
               then ui.console_Debug "List mode enabled" [] w else w in
      let w := if config.Selective cfg
               then ui.console_Debug "Selective mode enabled" [] w else w in
      let w := if config.Interactive cfg
               then ui.console_Debug "Interactive mode enabled" [] w else w in
      if config.All cfg
      then ui.console_Debug "All dependencies mode enabled" [] w else w
    else w in
  let '(listed, w) := dependency.manager_GetUpdatableDependencies w in
  match listed with
  | Err e => Some (Some (Plain e), w)
  | Ok allUpdatableDeps =>
      if len allUpdatableDeps =? 0 then
        Some (None, ui.console_Info "All dependencies are up to date! 🎉" [] w)
      else
        let filteredDeps :=
          dependency.manager_FilterDependencies allUpdatableDeps
            (config.ShouldIncludeIndirect cfg) in
        if len filteredDeps =? 0 then
          let w :=
            if config.ShouldIncludeIndirect cfg then
              ui.console_Info "All dependencies are up to date! 🎉" [] w
            else
              let w := ui.console_Info
                         "All direct dependencies are up to date! 🎉" [] w in
              if len allUpdatableDeps >? 0 then
                ui.console_Info
                  "(%d indirect dependencies have updates available, use --all to include them)"
                  [ArgInt (len allUpdatableDeps - len filteredDeps)] w
              else w in
          Some (None, w)
        else
          let w := ui.console_Debug "Selecting dependencies to update..." [] w in
          match selectDependencies cfg filteredDeps w with
          | None => None
          | Some (Err e, w) => Some (Some (ErrSelectionFailed e), w)
          | Some (Ok selectedDeps, w) =>
              let w := ui.console_Debug "Selected %d dependencies for update"
                         [ArgInt (len selectedDeps)] w in
              if len selectedDeps =? 0 then
                Some (None, ui.console_Info "No dependencies selected for update" [] w)
              else if config.List cfg then Some (None, w)
              else if config.Interactive cfg && negb (config.Selective cfg) then
                let '(ok, w) :=
                  ui.console_Confirm "Do you want to proceed with the update?" w in
                if negb ok then Some (None, ui.console_Info "Update cancelled" [] w)
                else
                  let '(err, w) := performUpdate cfg selectedDeps w in
                  Some (option_map Plain err, w)
              else
                let '(err, w) := performUpdate cfg selectedDeps w in
                Some (option_map Plain err, w)
          end
  end.

End Application.

End App.

End app.

(* ----------------------------------------------------------------- *)
(** ** Concrete instances, to run the code *)

(** The ASCII part of [strings.ToLower] and [strings.TrimSpace]: on strings
    of ASCII bytes Go lowers [A-Z] and trims tab, line feed, vertical tab,
    form feed, carriage return and space. *)
Module ascii_only.

Definition lower (c : ascii) : ascii :=
  let n := nat_of_ascii c in
  if ((65 <=? n) && (n <=? 90))%nat then ascii_of_nat (n + 32) else c.

Fixpoint ToLower (s : string) : string :=
  match s with
  | EmptyString => EmptyString
  | String c s' => String (lower c) (ToLower s')
  end.

Definition is_space (c : ascii) : bool :=
  let n := nat_of_ascii c in
  ((9 <=? n) && (n <=? 13) || (n =? 32))%nat.

Fixpoint TrimLeft (s : string) : string :=
  match s with
  | EmptyString => EmptyString
  | String c s' => if is_space c then TrimLeft s' else s
  end.

Fixpoint TrimRight (s : string) : string :=
  match s with
  | EmptyString => EmptyString
  | String c s' =>
      match TrimRight s' with
      | EmptyString => if is_space c then EmptyString else String c EmptyString
      | t => String c t
      end
  end.

Definition TrimSpace (s : string) : string := TrimRight (TrimLeft s).

Definition strings : UnicodeStrings :=
  Build_UnicodeStrings ToLower TrimSpace.

End ascii_only.

(** The insertion sort of Go's [sort] package ([insertionSortCmpFunc], which
    [sort.Slice] runs on slices of at most 12 elements): each element in turn
    moves left past the elements it is [less] than.  The sorted prefix is
    kept reversed, so the move to the left is a walk down the list. *)
Module insertion.

Fixpoint insert {A : Type} (less : A -> A -> bool) (x : A) (rprefix : list A)
  : list A :=
  match rprefix with
  | [] => [x]
  | y :: r => if less x y then y :: insert less x r else x :: rprefix
  end.

Definition sort (A : Type) (less : A -> A -> bool) (l : list A) : list A :=
  rev (fold_left (fun rprefix x => insert less x rprefix) l []).

Definition sorter : Sorter := sort.

End insertion.

(** A scripted outside world: what the user will type and answer, which
    modules fail to update, and the trace of everything the program did. *)
Module script.

Inductive Event : Type :=
| EvInfo (format : string) (args : list fmt_arg)
| EvSuccess (format : string) (args : list fmt_arg)
| EvError (format : string) (args : list fmt_arg)
| EvReadInput (prompt : string)
| EvConfirm (message : string)
| EvPrintDependencies (deps : list dependency.Dependency) (title : string)
| EvPrintln (line : string)
| EvRun (name : string) (args : list string) (verbose : bool)
| EvProgressBar (current total : Z) (message : string).

Record World : Type := {
  stdin : list (string * option error);
  answers : list bool;
  failing : list string;
  trace : list Event
}.

Definition emit (e : Event) (w : World) : World :=
  {| stdin := stdin w; answers := answers w; failing := failing w;
     trace := trace w ++ [e] |}.

Definition ReadInput (prompt : string) (w : World) : (string * option error) * World :=
  match stdin w with
  | [] => (("", Some (ErrExternal "EOF")), emit (EvReadInput prompt) w)
  | r :: rest =>
      (r, emit (EvReadInput prompt)
            {| stdin := rest; answers := answers w; failing := failing w;
               trace := trace w |})
  end.

Definition Confirm (message : string) (w : World) : bool * World :=
  match answers w with
  | [] => (false, emit (EvConfirm message) w)
  | b :: rest =>
      (b, emit (EvConfirm message)
            {| stdin := stdin w; answers := rest; failing := failing w;
               trace := trace w |})
  end.

(** [go get -u path] fails exactly for the paths listed in [failing]. *)
Definition Run (name : string) (args : list string) (verbose : bool) (w : World)
  : option error * World :=
  let w' := emit (EvRun name args verbose) w in
  match args with
  | ["get"; "-u"; path] =>
      if existsb (String.eqb path) (failing w)
      then (Some (ErrExternal "exit status 1"), w')
      else (None, w')
  | _ => (None, w')
  end.

#[export] Instance ui : selector.UIInterface World := {|
  selector.ui_Info f a := emit (EvInfo f a);
  selector.ui_Success f a := emit (EvSuccess f a);
  selector.ui_Error f a := emit (EvError f a);
  selector.ui_ReadInput := ReadInput;
  selector.ui_Confirm := Confirm;
  selector.ui_PrintDependencies d t := emit (EvPrintDependencies d t)
|}.

#[export] Instance stdout : selector.Stdout World :=
  fun line => emit (EvPrintln line).

#[export] Instance runner : updater.CommandRunner World := Run.

#[export] Instance console : app.Console World :=
  fun current total message => emit (EvProgressBar current total message).

Definition start (lines : list (string * option error)) (yesno : list bool)
    (bad : list string) : World :=
  {| stdin := lines; answers := yesno; failing := bad; trace := [] |}.

End script.

(** Three records to run the examples on. *)
Definition dep (path : string) (indirect : bool) : dependency.Dependency :=
  {| dependency.Path := path; dependency.Version := "v1.0.0";
     dependency.NewVersion := "v1.1.0"; dependency.Indirect := indirect;
     dependency.HasUpdate := true |}.

(** The three of them, in canonical order. *)
Definition dep_a : dependency.Dependency := dep "a/a" false.
Definition dep_b : dependency.Dependency := dep "b/b" false.
Definition dep_c : dependency.Dependency := dep "c/c" true.

(** [Subseq s l]: [s] is [l] with some elements left out; the elements that
    stay keep their relative order. *)
Inductive Subseq {A : Type} : list A -> list A -> Prop :=
| Subseq_nil : Subseq [] []
| Subseq_keep x s l : Subseq s l -> Subseq (x :: s) (x :: l)
| Subseq_skip x s l : Subseq s l -> Subseq s (x :: l).

(** [Interleaved l1 l2 l]: every element of [l] went to exactly one of [l1]
    and [l2], and both kept the order of [l]. *)
Inductive Interleaved {A : Type} : list A -> list A -> list A -> Prop :=
| Interleaved_nil : Interleaved [] [] []
| Interleaved_left x l1 l2 l :
    Interleaved l1 l2 l -> Interleaved (x :: l1) l2 (x :: l)
| Interleaved_right x l1 l2 l :
    Interleaved l1 l2 l -> Interleaved l1 (x :: l2) (x :: l).

(** The direct (non-indirect) records, and the indirect ones. *)
Definition is_direct (d : dependency.Dependency) : bool :=
  negb (dependency.Indirect d).

Definition is_indirect (d : dependency.Dependency) : bool :=
  dependency.Indirect d.

(** Ascending lexicographic order of the paths, byte by byte. *)
Definition path_le (a b : dependency.Dependency) : Prop :=
  String.ltb (dependency.Path b) (dependency.Path a) = false.

(** The ordering invariant of the data model: the direct records stand
    before the indirect ones, and each group ascends by path. *)
Definition canonical (l : list dependency.Dependency) : Prop :=
  l = filter is_direct l ++ filter is_indirect l /\
  StronglySorted path_le (filter is_direct l) /\
  StronglySorted path_le (filter is_indirect l).

(** The paths of a list are pairwise distinct (data-model invariant). *)
Definition unique_paths (l : list dependency.Dependency) : Prop :=
  NoDup (map dependency.Path l).

(** A runner that, on top of another one, keeps the list of the commands it
    was asked to run, in the order of the calls. *)
Module recording.

Definition Call : Type := string * list string * bool.

Definition runner {W : Type} `{updater.CommandRunner W}
  : updater.CommandRunner (W * list Call) :=
  fun name args verbose '(w, calls) =>
    let '(err, w) := updater.Run name args verbose w in
    (err, (w, calls ++ [(name, args, verbose)])).

Definition console {W : Type} `{app.Console W} : app.Console (W * list Call) :=
  fun current total message '(w, calls) =>
    (app.ProgressBar current total message w, calls).

End recording.

(** The external update of one record: [go get -u <path>]. *)
Definition go_get (verbose : bool) (d : dependency.Dependency) : recording.Call :=
  ("go", ["get"; "-u"; dependency.Path d], verbose).

(** The grammar of a range, in the words of the specification: the clause
    splits at ['-'] into exactly two tokens which, trimmed, are integers. *)
Definition range_tokens `{UnicodeStrings} (part : string) : option (Z * Z) :=
  match strings.Split part "-" with
  | [token0; token1] =>
      match strconv.Atoi (TrimSpace token0), strconv.Atoi (TrimSpace token1) with
      | Some start, Some stop => Some (start, stop)
      | _, _ => None
      end
  | _ => None
  end.

(** The records at the 1-based positions [start], ..., [stop] of [deps]. *)
Definition positions (start stop : Z) (deps : list dependency.Dependency)
  : list dependency.Dependency :=
  firstn (Z.to_nat (stop - start + 1)) (skipn (Z.to_nat (start - 1)) deps).

(** The three errors of a malformed range. *)
Definition InvalidRange (e : error) : Prop :=
  match e with
  | ErrInvalidRangeFormat _ | ErrInvalidStart _ | ErrInvalidEnd _ => True
  | _ => False
  end.

(** The three results with which the selection loop can end. *)
Definition cancelled : selector.SelectionResult :=
  {| selector.Selected := []; selector.Cancelled := true; selector.Error := None |}.

Definition failed (e : error) : selector.SelectionResult :=
  {| selector.Selected := []; selector.Cancelled := false;
     selector.Error := Some (ErrReadingInput e) |}.

Definition accepted (selected : list dependency.Dependency)
  : selector.SelectionResult :=
  {| selector.Selected := selected; selector.Cancelled := false;
     selector.Error := None |}.

(** The prompt of the selection loop. *)
Definition prompt : string := "Select dependencies to update".

(* ----------------------------------------------------------------- *)
(** ** Notions used to state further properties of the code *)

(** A result that is a value or an error of the program, not a panic. *)
Definition returns_normally {A : Type} (r : result A) : Prop :=
  match r with
  | Err RuntimePanic => False
  | _ => True
  end.

(** [sub] occurs in [s]. *)
Definition occurs (sub s : string) : Prop :=
  exists pre post, s = (pre ++ sub ++ post)%string.

(** The non-empty [parts] occur in [s] one after the other, without
    overlap, with anything before, between and after them. *)
Fixpoint occur_in_order (parts : list string) (s : string) : Prop :=
  match parts with
  | [] => True
  | part :: rest =>
      if (part =? "")%string then occur_in_order rest s
      else exists pre post,
             s = (pre ++ part ++ post)%string /\ occur_in_order rest post
  end.

(** A pattern made of wildcards only (the empty pattern is one). *)
Fixpoint only_wildcards (pattern : string) : bool :=
  match pattern with
  | EmptyString => true
  | String c rest => Ascii.eqb c "*"%char && only_wildcards rest
  end.

(** The record [d] matches the pattern, paths compared in lower case. *)
Definition matches `{UnicodeStrings} (pattern : string) (d : dependency.Dependency)
  : bool :=
  selector.matchesPattern (ToLower (dependency.Path d)) pattern.

(** What the runner answers when the records are updated one after the
    other: each record with the error of its [go get -u], and the world
    after the last command. *)
Fixpoint outcomes {W : Type} `{updater.CommandRunner W}
    (deps : list dependency.Dependency) (verbose : bool) (w : W)
  : list (dependency.Dependency * option error) * W :=
  match deps with
  | [] => ([], w)
  | d :: rest =>
      let '(err, w) := updater.Run "go" ["get"; "-u"; dependency.Path d] verbose w in
      let '(outs, w) := outcomes rest verbose w in
      ((d, err) :: outs, w)
  end.

(** The records whose command returned no error. *)
Definition updated_of (outs : list (dependency.Dependency * option error))
  : list dependency.Dependency :=
  flat_map (fun o => match snd o with None => [fst o] | Some _ => [] end) outs.

(** The records whose command failed, each with the error of the command. *)
Definition failed_of (outs : list (dependency.Dependency * option error))
  : list updater.UpdateError :=
  flat_map (fun o => match snd o with
                     | None => []
                     | Some e => [ {| updater.Dependency := fst o;
                                      updater.Error := e |} ]
                     end) outs.

Definition all_succeeded (outs : list (dependency.Dependency * option error)) : bool :=
  forallb (fun o => match snd o with None => true | Some _ => false end) outs.

Definition result_of (outs : list (dependency.Dependency * option error))
  : updater.UpdateResult :=
  {| updater.Updated := updated_of outs;
     updater.Failed := failed_of outs;
     updater.Success := all_succeeded outs |}.

(** A console that shows no progress. *)
Definition silent_progress {W : Type} : app.Console W :=
  fun _ _ _ w => w.

(** What [GetUpdatableDependencies] keeps of one decoded module: nothing of
    the main module, of a module without version or of one without update. *)
Definition updatable_of (m : dependency.Module_) : list dependency.Dependency :=
  if dependency.mod_Main m then []
  else if (dependency.mod_Version m =? "")%string then []
  else match dependency.mod_Update m with
       | Some (_, newVersion) =>
           [ {| dependency.Path := dependency.mod_Path m;
                dependency.Version := dependency.mod_Version m;
                dependency.NewVersion := newVersion;
                dependency.Indirect := dependency.mod_Indirect m;
                dependency.HasUpdate := true |} ]
       | None => []
       end.

(** A decoded listing to run the examples on: the main module, an indirect
    module with an update and a direct one without. *)
Definition example_modules : list dependency.Module_ :=
  [ {| dependency.mod_Path := "goup"; dependency.mod_Version := "";
       dependency.mod_Indirect := false; dependency.mod_Main := true;
       dependency.mod_Update := None |};
    {| dependency.mod_Path := "b/b"; dependency.mod_Version := "v1.0.0";
       dependency.mod_Indirect := true; dependency.mod_Main := false;
       dependency.mod_Update := Some ("b/b", "v1.1.0") |};
    {| dependency.mod_Path := "a/a"; dependency.mod_Version := "v1.0.0";
       dependency.mod_Indirect := false; dependency.mod_Main := false;
       dependency.mod_Update := None |} ].

(** The length of a string in bytes, as an [int]. *)
Definition len_bytes (s : string) : Z := Z.of_nat (String.length s).

(** [go mod tidy]. *)
Definition go_mod_tidy (verbose : bool) : recording.Call :=
  ("go", ["mod"; "tidy"], verbose).

(** The console, the manager and the selector over a world that also keeps
    the list of the commands run: they act on the world below and leave the
    list alone. *)
Module recorded.

Definition console {W : Type} `{ui.Console W} : ui.Console (W * list recording.Call) := {|
  ui.console_Header := fun '(w, calls) => (ui.console_Header w, calls);
  ui.console_Info := fun f a '(w, calls) => (ui.console_Info f a w, calls);
  ui.console_Success := fun f a '(w, calls) => (ui.console_Success f a w, calls);
  ui.console_Warning := fun f a '(w, calls) => (ui.console_Warning f a w, calls);
  ui.console_Debug := fun f a '(w, calls) => (ui.console_Debug f a w, calls);
  ui.console_Error := fun f a '(w, calls) => (ui.console_Error f a w, calls);
  ui.console_Progress := fun f a '(w, calls) => (ui.console_Progress f a w, calls);
  ui.console_ProgressBar :=
    fun c t m '(w, calls) => (ui.console_ProgressBar c t m w, calls);
  ui.console_ReadInput :=
    fun p '(w, calls) => let '(r, w) := ui.console_ReadInput p w in (r, (w, calls));
  ui.console_Confirm :=
    fun m '(w, calls) => let '(b, w) := ui.console_Confirm m w in (b, (w, calls));
  ui.console_PrintDependencies :=
    fun d t '(w, calls) => (ui.console_PrintDependencies d t w, calls);
  ui.console_PrintUpdateResult :=
    fun u t h '(w, calls) => (ui.console_PrintUpdateResult u t h w, calls)
|}.

Definition manager {W : Type} `{dependency.Manager W}
  : dependency.Manager (W * list recording.Call) := {|
  dependency.manager_GetDependencies :=
    fun '(w, calls) =>
      let '(r, w) := dependency.manager_GetDependencies w in (r, (w, calls));
  dependency.manager_FilterDependencies := dependency.manager_FilterDependencies;
  dependency.manager_GetUpdatableDependencies :=
    fun '(w, calls) =>
      let '(r, w) := dependency.manager_GetUpdatableDependencies w in (r, (w, calls))
|}.

Definition selector {W : Type} `{selector.Selector W}
  : selector.Selector (W * list recording.Call) :=
  fun deps includeIndirect '(w, calls) =>
    match selector.selector_Select deps includeIndirect w with
    | None => None
    | Some (r, w) => Some (r, (w, calls))
    end.

End recorded.

(** A scripted session of the whole application: what listing the updates
    yields, what the user types and answers, which modules fail to update,
    what [go mod tidy] answers, and the trace of everything that happened. *)
Module session.

Inductive Event : Type :=
| EvHeader
| EvInfo (format : string) (args : list fmt_arg)
| EvSuccess (format : string) (args : list fmt_arg)
| EvWarning (format : string) (args : list fmt_arg)
| EvDebug (format : string) (args : list fmt_arg)
| EvError (format : string) (args : list fmt_arg)
| EvProgress (format : string) (args : list fmt_arg)
| EvProgressBar (current total : Z) (message : string)
| EvReadInput (prompt : string)
| EvConfirm (message : string)
| EvPrintDependencies (deps : list dependency.Dependency) (title : string)
| EvPrintUpdateResult (updated total : Z) (hasErrors : bool)
| EvPrintln (line : string)
| EvListUpdates
| EvRun (name : string) (args : list string) (verbose : bool).

Record World : Type := {
  listing : result (list dependency.Dependency);
  stdin : list (string * option error);
  answers : list bool;
  failing : list string;
  tidy : option error;
  trace : list Event
}.

Definition emit (e : Event) (w : World) : World :=
  {| listing := listing w; stdin := stdin w; answers := answers w;
     failing := failing w; tidy := tidy w; trace := trace w ++ [e] |}.

Definition ReadInput (prompt : string) (w : World) : (string * option error) * World :=
  match stdin w with
  | [] => (("", Some (ErrExternal "EOF")), emit (EvReadInput prompt) w)
  | r :: rest =>
      (r, emit (EvReadInput prompt)
            {| listing := listing w; stdin := rest; answers := answers w;
               failing := failing w; tidy := tidy w; trace := trace w |})
  end.

Definition Confirm (message : string) (w : World) : bool * World :=
  match answers w with
  | [] => (false, emit (EvConfirm message) w)
  | b :: rest =>
      (b, emit (EvConfirm message)
            {| listing := listing w; stdin := stdin w; answers := rest;
               failing := failing w; tidy := tidy w; trace := trace w |})
  end.

Definition Run (name : string) (args : list string) (verbose : bool) (w : World)
  : option error * World :=
  let w' := emit (EvRun name args verbose) w in
  match args with
  | ["get"; "-u"; path] =>
      if existsb (String.eqb path) (failing w)
      then (Some (ErrExternal "exit status 1"), w')
      else (None, w')
  | ["mod"; "tidy"] => (tidy w, w')
  | _ => (None, w')
  end.

Definition console : ui.Console World := {|
  ui.console_Header := emit EvHeader;
  ui.console_Info := fun f a => emit (EvInfo f a);
  ui.console_Success := fun f a => emit (EvSuccess f a);
  ui.console_Warning := fun f a => emit (EvWarning f a);
  ui.console_Debug := fun f a => emit (EvDebug f a);
  ui.console_Error := fun f a => emit (EvError f a);
  ui.console_Progress := fun f a => emit (EvProgress f a);
  ui.console_ProgressBar := fun c t m => emit (EvProgressBar c t m);
  ui.console_ReadInput := ReadInput;
  ui.console_Confirm := Confirm;
  ui.console_PrintDependencies := fun d t => emit (EvPrintDependencies d t);
  ui.console_PrintUpdateResult := fun u t h => emit (EvPrintUpdateResult u t h)
|}.

Definition stdout : selector.Stdout World :=
  fun line => emit (EvPrintln line).

(** The manager of the session answers with the scripted listing and
    filters like the real one. *)
Definition manager : dependency.Manager World := {|
  dependency.manager_GetDependencies := fun w => (listing w, emit EvListUpdates w);
  dependency.manager_FilterDependencies := dependency.FilterDependencies;
  dependency.manager_GetUpdatableDependencies :=
    fun w => (listing w, emit EvListUpdates w)
|}.

Definition runner : updater.CommandRunner World := Run.

(** The interactive selector on the console of the session. *)
Definition selector (fuel : nat) : selector.Selector World :=
  @selector.interactiveSelector World ascii_only.strings
    (@ui.as_UIInterface World console) stdout fuel.

Definition start (listed : result (list dependency.Dependency))
    (lines : list (string * option error)) (yesno : list bool)
    (bad : list string) (tidied : option error) : World :=
  {| listing := listed; stdin := lines; answers := yesno; failing := bad;
     tidy := tidied; trace := [] |}.

(** The application of the session, as [main] wires it. *)
Definition Run_app (fuel : nat) (cfg : config.Config) (w : World)
  : option (option app.App.run_error * World) :=
  @app.App.Run World console manager (selector fuel)
    (@updater.goUpdater World runner) cfg w.

(** The commands in a trace. *)
Definition commands (events : list Event) : list recording.Call :=
  flat_map (fun e => match e with
                     | EvRun name args verbose => [(name, args, verbose)]
                     | _ => []
                     end) events.

End session.

(** The flags all off, and single flags on. *)
Definition cfg_default : config.Config :=
  {| config.List := false; config.Interactive := false; config.Verbose := false;
     config.NoColor := false; config.All := false; config.Selective := false |}.

Definition cfg_list : config.Config :=
  {| config.List := true; config.Interactive := false; config.Verbose := false;
     config.NoColor := false; config.All := false; config.Selective := false |}.

Definition cfg_select : config.Config :=
  {| config.List := false; config.Interactive := false; config.Verbose := false;
     config.NoColor := false; config.All := true; config.Selective := true |}.

(* ================================================================= *)
(** * Part II: theorems *)

Import dependency.

(* ----------------------------------------------------------------- *)
(** ** General facts on lists *)

Lemma Subseq_refl {A : Type} (l : list A) : Subseq l l.
Proof. induction l; constructor; assumption. Qed.

Lemma Subseq_filter {A : Type} (f : A -> bool) (l : list A) :
  Subseq (filter f l) l.
Proof.
  induction l as [|x l IH]; simpl.
  - constructor.
  - destruct (f x); constructor; exact IH.
Qed.

Lemma Interleaved_length {A : Type} (l1 l2 l : list A) :
  Interleaved l1 l2 l -> (length l1 + length l2 = length l)%nat.
Proof. induction 1; simpl; lia. Qed.

Lemma Interleaved_Permutation {A : Type} (l1 l2 l : list A) :
  Interleaved l1 l2 l -> Permutation (l1 ++ l2) l.
Proof.
  induction 1; simpl.
  - constructor.
  - constructor; assumption.
  - etransitivity; [symmetry; apply Permutation_middle|].
    constructor; assumption.
Qed.

Lemma Interleaved_Subseq {A : Type} (l1 l2 l : list A) :
  Interleaved l1 l2 l -> Subseq l1 l /\ Subseq l2 l.
Proof.
  induction 1 as [| x l1 l2 l _ [IH1 IH2] | x l1 l2 l _ [IH1 IH2]];
    split; constructor; assumption.
Qed.

(* ----------------------------------------------------------------- *)
(** ** [FilterDependencies] *)

(** The loop of [FilterDependencies], started from any [filtered]. *)
Lemma FilterDependencies_loop (deps filtered : list Dependency) :
  fold_left
    (fun filtered dep => if negb (Indirect dep) then filtered ++ [dep] else filtered)
    deps filtered
  = filtered ++ filter is_direct deps.
Proof.
  revert filtered.
  induction deps as [|d deps IH]; intros filtered; simpl.
  - now rewrite app_nil_r.
  - rewrite IH. unfold is_direct at 2.
    destruct (negb (Indirect d)); [now rewrite <- app_assoc | reflexivity].
Qed.

Lemma FilterDependencies_direct (L : list Dependency) :
  FilterDependencies L false = filter is_direct L.
Proof. unfold FilterDependencies. now rewrite FilterDependencies_loop. Qed.

(** C6.  With [includeIndirect = true] the filter returns its input; with
    [includeIndirect = false] it returns the non-indirect records of the
    input and only them, each as often as the input has it, in the order of
    the input. *)
Theorem FilterDependencies_spec (L : list Dependency) :
  FilterDependencies L true = L /\
  FilterDependencies L false = filter is_direct L /\
  (forall d, In d (FilterDependencies L false) <-> In d L /\ Indirect d = false) /\
  Interleaved (FilterDependencies L false) (filter is_indirect L) L /\
  Subseq (FilterDependencies L false) L.
Proof.
  rewrite FilterDependencies_direct.
  split; [reflexivity|]. split; [reflexivity|].
  split; [|split].
  - intros d. rewrite filter_In. unfold is_direct.
    now rewrite negb_true_iff.
  - induction L as [|d L IH]; simpl; [constructor|].
    unfold is_direct at 1, is_indirect at 1.
    destruct (Indirect d); simpl; constructor; exact IH.
  - apply Subseq_filter.
Qed.

(* ----------------------------------------------------------------- *)
(** ** The byte order of strings *)

Lemma ltb_lt (a b : string) : String.ltb a b = true <-> String_as_OT.lt a b.
Proof.
  unfold String.ltb, String_as_OT.lt.
  change String_as_OT.compare with String.compare.
  destruct (String.compare a b); split; congruence.
Qed.

Lemma ltb_irrefl (a : string) : String.ltb a a = false.
Proof.
  destruct (String.ltb a a) eqn:E; [|reflexivity].
  apply ltb_lt in E. now apply (StrictOrder_Irreflexive a) in E.
Qed.

Lemma ltb_trans (a b c : string) :
  String.ltb a b = true -> String.ltb b c = true -> String.ltb a c = true.
Proof.
  rewrite !ltb_lt. apply (StrictOrder_Transitive (R := String_as_OT.lt)).
Qed.

Lemma ltb_trichotomy (a b : string) :
  String.ltb a b = false -> a = b \/ String.ltb b a = true.
Proof.
  unfold String.ltb. rewrite (String.compare_antisym b a).
  destruct (String.compare a b) eqn:E; simpl; intros Hab.
  - left. now apply String.compare_eq_iff.
  - discriminate.
  - now right.
Qed.

Lemma ltb_asym (a b : string) :
  String.ltb a b = true -> String.ltb b a = false.
Proof.
  intros Hab. destruct (String.ltb b a) eqn:Hba; [|reflexivity].
  pose proof (ltb_trans _ _ _ Hab Hba) as Haa.
  now rewrite ltb_irrefl in Haa.
Qed.


Lemma ltb_negtrans (a b c : string) :
  String.ltb a b = false -> String.ltb b c = false -> String.ltb a c = false.
Proof.
  intros Hab Hbc. destruct (String.ltb a c) eqn:Hac; [|reflexivity].
  destruct (ltb_trichotomy _ _ Hab) as [E|Hba].
  - subst b. congruence.
  - pose proof (ltb_trans _ _ _ Hba Hac). congruence.
Qed.

(* ----------------------------------------------------------------- *)
(** ** Sorted lists *)

Lemma StronglySorted_app {A : Type} (R : A -> A -> Prop) (l1 l2 : list A) :
  StronglySorted R l1 -> StronglySorted R l2 ->
  (forall a b, In a l1 -> In b l2 -> R a b) ->
  StronglySorted R (l1 ++ l2).
Proof.
  intros H1 H2 Hcross. induction H1 as [|a l1 Hs IH Hall]; simpl.
  - exact H2.
  - constructor.
    + apply IH. intros x y Hx Hy. apply Hcross; [now right | exact Hy].
    + apply Forall_app. split; [exact Hall|].
      apply Forall_forall. intros y Hy. apply Hcross; [now left | exact Hy].
Qed.

Lemma StronglySorted_rev {A : Type} (R : A -> A -> Prop) (l : list A) :
  StronglySorted R l -> StronglySorted (fun a b => R b a) (rev l).
Proof.
  induction 1 as [|a l Hs IH Hall]; simpl.
  - constructor.
  - apply StronglySorted_app.
    + exact IH.
    + repeat constructor.
    + intros x y Hx [<-|[]]. apply in_rev in Hx.
      rewrite Forall_forall in Hall. now apply Hall.
Qed.

Lemma StronglySorted_weaken {A : Type} (R R' : A -> A -> Prop) (l : list A) :
  (forall a b, In a l -> In b l -> R a b -> R' a b) ->
  StronglySorted R l -> StronglySorted R' l.
Proof.
  intros Himp Hs. induction Hs as [|a l Hs IH Hall].
  - constructor.
  - constructor.
    + apply IH. intros x y Hx Hy. apply Himp; now right.
    + rewrite Forall_forall in *. intros y Hy.
      apply Himp; [now left | now right | now apply Hall].
Qed.

Lemma StronglySorted_filter {A : Type} (R : A -> A -> Prop) (f : A -> bool)
    (l : list A) :
  StronglySorted R l -> StronglySorted R (filter f l).
Proof.
  induction 1 as [|a l Hs IH Hall]; simpl; [constructor|].
  destruct (f a); [|exact IH].
  constructor; [exact IH|].
  rewrite Forall_forall in *. intros y Hy.
  apply filter_In in Hy. now apply Hall.
Qed.


Lemma filter_all {A : Type} (f : A -> bool) (l : list A) :
  Forall (fun x => f x = true) l -> filter f l = l.
Proof.
  induction 1 as [|x l Hx _ IH]; simpl; [reflexivity|].
  now rewrite Hx, IH.
Qed.

Lemma filter_none {A : Type} (f : A -> bool) (l : list A) :
  Forall (fun x => f x = false) l -> filter f l = [].
Proof.
  induction 1 as [|x l Hx _ IH]; simpl; [reflexivity|].
  now rewrite Hx, IH.
Qed.


(* ----------------------------------------------------------------- *)
(** ** The insertion sort honours the contract of [sort.Slice] *)

Lemma insert_Permutation {A : Type} (less : A -> A -> bool) (x : A) (r : list A) :
  Permutation (x :: r) (insertion.insert less x r).
Proof.
  induction r as [|y r IH]; simpl; [reflexivity|].
  destruct (less x y); [|reflexivity].
  etransitivity; [apply perm_swap|]. now constructor.
Qed.

Lemma insert_sorted {A : Type} (less : A -> A -> bool) (x : A) (r : list A) :
  strict_weak_order less ->
  StronglySorted (fun a b => less a b = false) r ->
  StronglySorted (fun a b => less a b = false) (insertion.insert less x r).
Proof.
  intros (Hirr & Htrans & Hneg) Hs.
  induction Hs as [|y r Hs IH Hall]; simpl.
  - repeat constructor.
  - destruct (less x y) eqn:Hxy.
    + constructor; [exact IH|].
      eapply Permutation_Forall; [apply insert_Permutation|].
      constructor; [|exact Hall].
      destruct (less y x) eqn:Hyx; [|reflexivity].
      pose proof (Htrans _ _ _ Hxy Hyx) as Hxx. now rewrite Hirr in Hxx.
    + constructor; [now constructor|].
      constructor; [exact Hxy|].
      rewrite Forall_forall in *. intros z Hz.
      eapply Hneg; [exact Hxy | now apply Hall].
Qed.

Lemma insertion_fold_Permutation {A : Type} (less : A -> A -> bool) (l acc : list A) :
  Permutation (l ++ acc)
    (fold_left (fun rprefix x => insertion.insert less x rprefix) l acc).
Proof.
  revert acc. induction l as [|x l IH]; intros acc; simpl; [reflexivity|].
  etransitivity; [|apply IH].
  etransitivity; [apply Permutation_middle|].
  apply Permutation_app_head, insert_Permutation.
Qed.

Lemma insertion_fold_sorted {A : Type} (less : A -> A -> bool) (l acc : list A) :
  strict_weak_order less ->
  StronglySorted (fun a b => less a b = false) acc ->
  StronglySorted (fun a b => less a b = false)
    (fold_left (fun rprefix x => insertion.insert less x rprefix) l acc).
Proof.
  intros Hless. revert acc.
  induction l as [|x l IH]; intros acc Hacc; simpl; [exact Hacc|].
  apply IH. now apply insert_sorted.
Qed.

Lemma insertion_sort_contract : @sort_Slice_contract insertion.sorter.
Proof.
  intros A less l. unfold sort_Slice, insertion.sorter, insertion.sort. split.
  - etransitivity; [|apply Permutation_rev].
    rewrite <- (app_nil_r l) at 1. apply insertion_fold_Permutation.
  - intros Hless. unfold sorted_by.
    apply (StronglySorted_rev (fun a b => less a b = false)).
    apply insertion_fold_sorted; [exact Hless | constructor].
Qed.

(* ----------------------------------------------------------------- *)
(** ** [sortDependencies] *)

Lemma sortDependencies_less_strict_weak_order :
  strict_weak_order sortDependencies_less.
Proof.
  unfold strict_weak_order, sortDependencies_less. repeat split.
  - intros a. rewrite Bool.eqb_reflx. simpl. apply ltb_irrefl.
  - intros a b c.
    destruct (Indirect a), (Indirect b), (Indirect c); simpl;
      try discriminate; try reflexivity; apply ltb_trans.
  - intros a b c.
    destruct (Indirect a), (Indirect b), (Indirect c); simpl;
      try discriminate; try reflexivity; apply ltb_negtrans.
Qed.

Lemma byPath_less_strict_weak_order : strict_weak_order byPath_less.
Proof.
  unfold strict_weak_order, byPath_less. repeat split.
  - intros a. apply ltb_irrefl.
  - intros a b c. apply ltb_trans.
  - intros a b c. apply ltb_negtrans.
Qed.

(** A list in the order of [sortDependencies_less] is canonical. *)
Lemma sorted_canonical (l : list Dependency) :
  sorted_by sortDependencies_less l -> canonical l.
Proof.
  unfold sorted_by, canonical.
  induction 1 as [|a l Hs (IHeq & IHd & IHi) Hall].
  - simpl. repeat split; constructor.
  - rewrite Forall_forall in Hall.
    destruct (Indirect a) eqn:Ha.
    + (* [a] is indirect: so is everything behind it *)
      assert (Hind : Forall (fun x => is_indirect x = true) l).
      { apply Forall_forall. intros b Hb. specialize (Hall b Hb).
        unfold sortDependencies_less in Hall. rewrite Ha in Hall.
        unfold is_indirect. destruct (Indirect b); [reflexivity|discriminate]. }
      assert (Hnone : Forall (fun x => is_direct x = false) l).
      { eapply Forall_impl; [|exact Hind].
        unfold is_direct, is_indirect. intros b ->. reflexivity. }
      assert (Hda : is_direct a = false) by (unfold is_direct; now rewrite Ha).
      cbn [filter]. rewrite Hda. change (is_indirect a) with (Indirect a).
      rewrite Ha, (filter_none _ _ Hnone), (filter_all _ _ Hind). simpl.
      repeat split; [constructor|].
      constructor.
      * rewrite (filter_all _ _ Hind) in IHi. exact IHi.
      * apply Forall_forall. intros b Hb. specialize (Hall b Hb).
        rewrite Forall_forall in Hind. specialize (Hind b Hb).
        unfold is_indirect in Hind.
        unfold sortDependencies_less in Hall. rewrite Ha, Hind in Hall.
        exact Hall.
    + assert (Hda : is_direct a = true) by (unfold is_direct; now rewrite Ha).
      cbn [filter]. rewrite Hda. change (is_indirect a) with (Indirect a).
      rewrite Ha. simpl.
      repeat split.
      * f_equal. exact IHeq.
      * constructor; [exact IHd|].
        apply Forall_forall. intros b Hb. apply filter_In in Hb as [Hb Hdir].
        specialize (Hall b Hb). unfold is_direct in Hdir.
        apply negb_true_iff in Hdir.
        unfold sortDependencies_less in Hall. rewrite Ha, Hdir in Hall.
        exact Hall.
      * exact IHi.
Qed.

(** And a canonical list is in the order of [sortDependencies_less]. *)
Lemma canonical_sorted (l : list Dependency) :
  canonical l -> sorted_by sortDependencies_less l.
Proof.
  unfold canonical, sorted_by. intros (Heq & Hd & Hi). rewrite Heq.
  apply StronglySorted_app.
  - eapply StronglySorted_weaken; [|exact Hd].
    intros a b Ha Hb Hab.
    apply filter_In in Ha as [_ Ha]. apply filter_In in Hb as [_ Hb].
    unfold is_direct in Ha, Hb. apply negb_true_iff in Ha, Hb.
    unfold sortDependencies_less. rewrite Ha, Hb. exact Hab.
  - eapply StronglySorted_weaken; [|exact Hi].
    intros a b Ha Hb Hab.
    apply filter_In in Ha as [_ Ha]. apply filter_In in Hb as [_ Hb].
    unfold is_indirect in Ha, Hb.
    unfold sortDependencies_less. rewrite Ha, Hb. exact Hab.
  - intros a b Ha Hb.
    apply filter_In in Ha as [_ Ha]. apply filter_In in Hb as [_ Hb].
    unfold is_direct in Ha. apply negb_true_iff in Ha.
    unfold is_indirect in Hb.
    unfold sortDependencies_less. now rewrite Ha, Hb.
Qed.


Section Sorting.
Context `{Sorter}.
Hypothesis sort_Slice_sorts : sort_Slice_contract.

Lemma sortDependencies_Permutation (deps : list Dependency) :
  Permutation deps (sortDependencies deps).
Proof. apply sort_Slice_sorts. Qed.

Lemma sortDependencies_sorted (deps : list Dependency) :
  sorted_by sortDependencies_less (sortDependencies deps).
Proof.
  apply sort_Slice_sorts, sortDependencies_less_strict_weak_order.
Qed.



(** C3.  Whatever the list, [sortDependencies] (the sort that
    [GetUpdatableDependencies] applies before the list is displayed) keeps
    the records and puts them in canonical order: the result is its
    non-indirect records followed by its indirect records, and each of the
    two groups ascends by path in byte order. *)
Theorem sortDependencies_canonical (deps : list Dependency) :
  Permutation deps (sortDependencies deps) /\
  sortDependencies deps =
    filter is_direct (sortDependencies deps) ++
    filter is_indirect (sortDependencies deps) /\
  StronglySorted path_le (filter is_direct (sortDependencies deps)) /\
  StronglySorted path_le (filter is_indirect (sortDependencies deps)).
Proof.
  split; [apply sortDependencies_Permutation|].
  apply sorted_canonical, sortDependencies_sorted.
Qed.


End Sorting.

Lemma sortDependencies_canonical_witness :
  @sort_Slice_contract insertion.sorter /\
  Permutation [dep_c; dep_b; dep_a]
    (@sortDependencies insertion.sorter [dep_c; dep_b; dep_a]) /\
  @sortDependencies insertion.sorter [dep_c; dep_b; dep_a] =
    filter is_direct (@sortDependencies insertion.sorter [dep_c; dep_b; dep_a]) ++
    filter is_indirect (@sortDependencies insertion.sorter [dep_c; dep_b; dep_a]) /\
  StronglySorted path_le
    (filter is_direct (@sortDependencies insertion.sorter [dep_c; dep_b; dep_a])) /\
  StronglySorted path_le
    (filter is_indirect (@sortDependencies insertion.sorter [dep_c; dep_b; dep_a])).
Proof.
  split.
  - exact insertion_sort_contract.
  - exact (@sortDependencies_canonical insertion.sorter insertion_sort_contract
             [dep_c; dep_b; dep_a]).
Defined.

Lemma abc_unique_paths : unique_paths [dep_a; dep_b; dep_c].
Proof.
  unfold unique_paths. simpl.
  repeat constructor; simpl; intuition discriminate.
Qed.



(** The sort lands on the same list whatever the order of the input. *)
Example sortDependencies_cba :
  @sortDependencies insertion.sorter [dep_c; dep_b; dep_a] = [dep_a; dep_b; dep_c].
Proof. reflexivity. Qed.

(** The insertion sort itself (what [sort.Slice] runs on short slices) moves
    nothing in a list that is already in order, equal paths or not: with it
    the canonical sort is idempotent on every list. *)
Lemma insertion_fold_in_order {A : Type} (less : A -> A -> bool) (l rprefix : list A) :
  sorted_by less (rev rprefix ++ l) ->
  fold_left (fun rprefix x => insertion.insert less x rprefix) l rprefix
  = rev l ++ rprefix.
Proof.
  unfold sorted_by. revert rprefix.
  induction l as [|x l IH]; intros rprefix Hsorted; simpl; [reflexivity|].
  assert (Hins : insertion.insert less x rprefix = x :: rprefix).
  { destruct rprefix as [|y r]; simpl; [reflexivity|].
    simpl in Hsorted. rewrite <- app_assoc in Hsorted. simpl in Hsorted.
    assert (Hyx : less x y = false).
    { clear IH. induction (rev r) as [|z zs IHz]; simpl in Hsorted.
      - apply StronglySorted_inv in Hsorted as [_ Hall].
        now apply Forall_inv in Hall.
      - apply StronglySorted_inv in Hsorted as [Hsorted _]. now apply IHz. }
    now rewrite Hyx. }
  rewrite Hins, IH.
  - now rewrite <- app_assoc.
  - simpl. now rewrite <- app_assoc.
Qed.

Lemma insertion_sort_in_order {A : Type} (less : A -> A -> bool) (l : list A) :
  sorted_by less l -> insertion.sort A less l = l.
Proof.
  intros Hsorted. unfold insertion.sort.
  rewrite insertion_fold_in_order by exact Hsorted.
  now rewrite app_nil_r, rev_involutive.
Qed.

Lemma insertion_sortDependencies_idempotent (L : list Dependency) :
  @sortDependencies insertion.sorter (@sortDependencies insertion.sorter L)
  = @sortDependencies insertion.sorter L /\
  (canonical L -> @sortDependencies insertion.sorter L = L).
Proof.
  split.
  - apply insertion_sort_in_order.
    apply (@sortDependencies_sorted insertion.sorter insertion_sort_contract).
  - intros Hcanon. apply insertion_sort_in_order. now apply canonical_sorted.
Qed.

(** The list that [GetUpdatableDependencies] hands to the filter is
    canonical, and stays so through [FilterDependencies]. *)
Lemma GetUpdatableDependencies_canonical `{Sorter} (modules : list Module_)
    (includeIndirect : bool) :
  sort_Slice_contract ->
  canonical (GetUpdatableDependencies modules) /\
  canonical (FilterDependencies (GetUpdatableDependencies modules) includeIndirect).
Proof.
  intros Hsort. unfold GetUpdatableDependencies.
  set (l := fold_left _ modules []).
  assert (Hc : canonical (sortDependencies l))
    by (apply sorted_canonical, sortDependencies_sorted, Hsort).
  split; [exact Hc|].
  destruct includeIndirect; [exact Hc|].
  rewrite FilterDependencies_direct.
  destruct Hc as (_ & Hd & _).
  assert (Hdd : filter is_direct (filter is_direct (sortDependencies l))
                = filter is_direct (sortDependencies l)).
  { apply filter_all, Forall_forall. intros d Hd'. now apply filter_In in Hd'. }
  assert (Hid : filter is_indirect (filter is_direct (sortDependencies l)) = []).
  { apply filter_none, Forall_forall. intros d Hd'.
    apply filter_In in Hd' as [_ Hd']. unfold is_direct in Hd'.
    unfold is_indirect. now apply negb_true_iff in Hd'. }
  unfold canonical. rewrite Hdd, Hid, app_nil_r.
  repeat split; [exact Hd | constructor].
Qed.

(** The earlier revision of the manager sorted by path alone: its lists
    ascend by path, direct and indirect records mixed. *)
Lemma sortByPath_sorted `{Sorter} (deps : list Dependency) :
  sort_Slice_contract ->
  Permutation deps (sortByPath deps) /\ StronglySorted path_le (sortByPath deps).
Proof.
  intros Hsort. split; [apply Hsort|].
  apply (proj2 (Hsort Dependency byPath_less deps)), byPath_less_strict_weak_order.
Qed.

Example sortByPath_mixes :
  @sortByPath insertion.sorter [dep "b/b" false; dep "a/a" true]
  = [dep "a/a" true; dep "b/b" false].
Proof. reflexivity. Qed.

(* ----------------------------------------------------------------- *)
(** ** The selection parser *)

Import selector.

Lemma skipn_nth_error {A : Type} (l : list A) (n : nat) (x : A) :
  nth_error l n = Some x -> skipn n l = x :: skipn (S n) l.
Proof.
  revert n. induction l as [|y l IH]; intros [|n]; simpl; try discriminate.
  - now intros [= ->].
  - intros Hn. now apply IH.
Qed.

Lemma containsDependency_In (slice : list Dependency) (d : Dependency) :
  containsDependency slice d = true <-> In (Path d) (map Path slice).
Proof.
  induction slice as [|item rest IH]; simpl.
  - split; [discriminate | contradiction].
  - destruct (String.eqb_spec (Path item) (Path d)) as [E|E].
    + split; [now left | reflexivity].
    + rewrite IH. split; [now right | now intros [?|?]].
Qed.

Lemma containsDependency_app (l1 l2 : list Dependency) (d : Dependency) :
  containsDependency (l1 ++ l2) d = containsDependency l1 d || containsDependency l2 d.
Proof.
  induction l1 as [|item l1 IH]; simpl; [reflexivity|].
  destruct (Path item =? Path d)%string; [reflexivity | exact IH].
Qed.

Section ParserFacts.
Context `{UnicodeStrings}.

(** The loop of [parseRange] never reads outside the list when its bounds
    are inside, and collects the records in ascending position. *)
Lemma parseRange_loop_slice (count : nat) (i : Z) (deps rangeDeps : list Dependency) :
  0 <= i -> (Z.to_nat i + count <= length deps)%nat ->
  parseRange_loop count i deps rangeDeps
  = Ok (rangeDeps ++ firstn count (skipn (Z.to_nat i) deps)).
Proof.
  revert i rangeDeps.
  induction count as [|count IH]; intros i rangeDeps Hi Hlen; simpl.
  - now rewrite app_nil_r.
  - destruct (nth_error deps (Z.to_nat i)) as [d|] eqn:Hd.
    + rewrite IH by lia.
      rewrite (skipn_nth_error _ _ _ Hd). simpl.
      replace (Z.to_nat (i + 1)) with (S (Z.to_nat i)) by lia.
      now rewrite <- app_assoc.
    + apply nth_error_None in Hd. lia.
Qed.

Lemma positions_length (start stop : Z) (deps : list Dependency) :
  1 <= start -> stop <= len deps -> start <= stop ->
  len (positions start stop deps) = stop - start + 1.
Proof.
  unfold positions, len. intros H1 H2 H3.
  rewrite length_firstn, length_skipn. lia.
Qed.

Lemma positions_nth_error (start stop : Z) (deps : list Dependency) (k : Z) :
  1 <= start -> 0 <= k <= stop - start ->
  nth_error (positions start stop deps) (Z.to_nat k)
  = nth_error deps (Z.to_nat (start - 1 + k)).
Proof.
  unfold positions. intros H1 Hk.
  rewrite nth_error_firstn.
  destruct (Nat.ltb_spec (Z.to_nat k) (Z.to_nat (stop - start + 1))); [|lia].
  rewrite nth_error_skipn. f_equal. lia.
Qed.

(** C5.  A range clause is rejected when it does not split at ['-'] into
    exactly two tokens that are integers once trimmed, and when its bounds
    have [start < 1], [stop > len(deps)] or [start > stop]; otherwise it
    yields the records at the 1-based positions [start] to [stop], both
    included, in ascending position -- and [ParseSelection] appends exactly
    these to the selection. *)
Theorem parseRange_spec (part : string) (deps : list Dependency) :
  (range_tokens part = None ->
   exists e, parseRange part deps = Err e /\ InvalidRange e) /\
  (forall start stop,
     range_tokens part = Some (start, stop) ->
     start < 1 \/ stop > len deps \/ start > stop ->
     parseRange part deps = Err (ErrRangeOutOfBounds start stop (len deps))) /\
  (forall start stop,
     range_tokens part = Some (start, stop) ->
     1 <= start -> stop <= len deps -> start <= stop ->
     parseRange part deps = Ok (positions start stop deps) /\
     len (positions start stop deps) = stop - start + 1 /\
     (forall k, 0 <= k <= stop - start ->
        nth_error (positions start stop deps) (Z.to_nat k)
        = nth_error deps (Z.to_nat (start - 1 + k)))) /\
  (forall rest selected,
     strings.Contains (TrimSpace part) "-" = true ->
     ParseSelection_loop (part :: rest) deps selected
     = match parseRange (TrimSpace part) deps with
       | Err e => Err e
       | Ok rangeDeps => ParseSelection_loop rest deps (selected ++ rangeDeps)
       end).
Proof.
  unfold range_tokens, parseRange.
  split; [|split; [|split]].
  - destruct (strings.Split part "-") as [|token0 [|token1 [|token2 tokens]]];
      try (intros _; eexists; split; [reflexivity | exact I]).
    destruct (strconv.Atoi (TrimSpace token0)) as [start|];
      [|intros _; eexists; split; [reflexivity | exact I]].
    destruct (strconv.Atoi (TrimSpace token1)) as [stop|];
      [discriminate | intros _; eexists; split; [reflexivity | exact I]].
  - intros start stop Htok Hbad.
    destruct (strings.Split part "-") as [|token0 [|token1 [|token2 tokens]]];
      try discriminate.
    destruct (strconv.Atoi (TrimSpace token0)) as [start'|]; [|discriminate].
    destruct (strconv.Atoi (TrimSpace token1)) as [stop'|]; [|discriminate].
    injection Htok as -> ->.
    destruct ((start <? 1) || (stop >? len deps) || (start >? stop)) eqn:E;
      [reflexivity|].
    apply orb_false_iff in E as [E E3]. apply orb_false_iff in E as [E1 E2].
    lia.
  - intros start stop Htok H1 H2 H3.
    split; [|split].
    + destruct (strings.Split part "-") as [|token0 [|token1 [|token2 tokens]]];
        try discriminate.
      destruct (strconv.Atoi (TrimSpace token0)) as [start'|]; [|discriminate].
      destruct (strconv.Atoi (TrimSpace token1)) as [stop'|]; [|discriminate].
      injection Htok as -> ->.
      destruct ((start <? 1) || (stop >? len deps) || (start >? stop)) eqn:E.
      * apply orb_true_iff in E as [E|E]; [apply orb_true_iff in E as [E|E]|]; lia.
      * unfold len in H2. rewrite parseRange_loop_slice by lia.
        unfold positions. simpl. do 3 f_equal. lia.
    + now apply positions_length.
    + intros k Hk. now apply positions_nth_error.
  - intros rest selected Hdash. simpl. now rewrite Hdash.
Qed.

End ParserFacts.

Lemma parseRange_spec_witness :
  (exists e, @parseRange ascii_only.strings "x-2" [dep_a; dep_b; dep_c] = Err e
             /\ InvalidRange e) /\
  @parseRange ascii_only.strings "3-1" [dep_a; dep_b; dep_c]
    = Err (ErrRangeOutOfBounds 3 1 3) /\
  @parseRange ascii_only.strings "1 - 2" [dep_a; dep_b; dep_c]
    = Ok [dep_a; dep_b] /\
  @ParseSelection_loop ascii_only.strings [" 2-3 "] [dep_a; dep_b; dep_c] [dep_a]
    = Ok [dep_a; dep_b; dep_c].
Proof.
  split; [|split; [|split]].
  - apply (@parseRange_spec ascii_only.strings "x-2" [dep_a; dep_b; dep_c]).
    reflexivity.
  - apply (proj1 (proj2 (@parseRange_spec ascii_only.strings "3-1"
                           [dep_a; dep_b; dep_c])) 3 1).
    + reflexivity.
    + right. right. reflexivity.
  - apply (proj1 (proj2 (proj2 (@parseRange_spec ascii_only.strings "1 - 2"
                                  [dep_a; dep_b; dep_c]))) 1 2).
    + reflexivity.
    + discriminate.
    + discriminate.
    + discriminate.
  - rewrite (proj2 (proj2 (proj2 (@parseRange_spec ascii_only.strings " 2-3 "
                                    [dep_a; dep_b; dep_c]))) [] [dep_a]).
    + reflexivity.
    + reflexivity.
Defined.

Lemma NoDup_snoc {A : Type} (l : list A) (x : A) :
  NoDup l -> ~ In x l -> NoDup (l ++ [x]).
Proof.
  intros Hl Hx. apply NoDup_app.
  - exact Hl.
  - repeat constructor. intros [].
  - intros y Hy [<-|[]]. now apply Hx.
Qed.

Section SelectionFacts.
Context `{UnicodeStrings}.

(** [matchPattern] reports a match exactly when some record matches the
    pattern and was not selected before the clause. *)
Lemma matchPattern_matched (pattern : string) (deps selected : list Dependency)
    (matched : bool) :
  fst (matchPattern pattern deps selected matched)
  = matched ||
    existsb (fun d => matchesPattern (ToLower (Path d)) pattern
                      && negb (containsDependency selected d)) deps.
Proof.
  revert selected matched.
  induction deps as [|d deps IH]; intros selected matched; simpl.
  - now rewrite orb_false_r.
  - destruct (matchesPattern (ToLower (Path d)) pattern); simpl.
    + destruct (containsDependency selected d); simpl.
      * apply IH.
      * rewrite IH. simpl. now rewrite orb_true_r.
    + apply IH.
Qed.

(** In particular, as the first clause of a selection (nothing selected
    yet), a pattern is accepted exactly when some record matches it. *)
Lemma matchPattern_first_clause (pattern : string) (deps : list Dependency) :
  fst (matchPattern pattern deps [] false) = true <->
  exists d, In d deps /\ matchesPattern (ToLower (Path d)) pattern = true.
Proof.
  rewrite matchPattern_matched. simpl. rewrite existsb_exists.
  split; intros (d & Hd & Hm); exists d; split; try assumption.
  - now rewrite andb_true_r in Hm.
  - now rewrite andb_true_r.
Qed.

Lemma matchPattern_NoDup (pattern : string) (deps selected : list Dependency)
    (matched : bool) :
  unique_paths selected ->
  unique_paths (snd (matchPattern pattern deps selected matched)).
Proof.
  unfold unique_paths. revert selected matched.
  induction deps as [|d deps IH]; intros selected matched Hsel; simpl.
  - exact Hsel.
  - destruct (matchesPattern (ToLower (Path d)) pattern); [|now apply IH].
    destruct (containsDependency selected d) eqn:Hc; simpl; [now apply IH|].
    apply IH. rewrite map_app. simpl. apply NoDup_snoc; [exact Hsel|].
    rewrite <- containsDependency_In. congruence.
Qed.

(** Numbers and patterns never select a path twice: as long as no clause is
    a range, the selection keeps its paths distinct. *)
Lemma ParseSelection_loop_unique_paths (parts : list string)
    (deps selected r : list Dependency) :
  Forall (fun part => strings.Contains (TrimSpace part) "-" = false) parts ->
  unique_paths selected ->
  ParseSelection_loop parts deps selected = Ok r ->
  unique_paths r.
Proof.
  intros Hparts. revert selected.
  induction Hparts as [|part parts Hpart _ IH]; intros selected Hsel; simpl.
  - now intros [= <-].
  - rewrite Hpart.
    destruct (strconv.Atoi (TrimSpace part)) as [num|].
    + destruct ((num <? 1) || (num >? len deps)); [discriminate|].
      destruct (nth_error deps (Z.to_nat (num - 1))) as [d|]; [|discriminate].
      destruct (containsDependency selected d) eqn:Hc; simpl.
      * now apply IH.
      * apply IH. unfold unique_paths. rewrite map_app. simpl.
        apply NoDup_snoc; [exact Hsel|].
        rewrite <- containsDependency_In. congruence.
    + destruct (matchPattern (TrimSpace part) deps selected false)
        as [matched selected'] eqn:Hm.
      destruct matched; simpl; [|discriminate].
      apply IH.
      pose proof (matchPattern_NoDup (TrimSpace part) deps selected false Hsel) as Hn.
      now rewrite Hm in Hn.
Qed.

End SelectionFacts.

(** C1.  The range clause is the one place where [ParseSelection] appends
    without looking at what is already selected: on ["1,1-2"] over three
    records it returns the first record twice. *)
Theorem ParseSelection_range_repeats_record :
  @ParseSelection ascii_only.strings "1,1-2" [dep_a; dep_b; dep_c]
    = Ok [dep_a; dep_a; dep_b] /\
  ~ NoDup (map Path [dep_a; dep_a; dep_b]).
Proof.
  split; [reflexivity|].
  intros Hnd. apply NoDup_cons_iff in Hnd as [Hin _].
  apply Hin. now left.
Qed.

(** The example of the specification, where every clause is a number. *)
Example ParseSelection_1_1_2 :
  @ParseSelection ascii_only.strings "1,1,2" [dep_a; dep_b; dep_c]
    = Ok [dep_a; dep_b].
Proof. reflexivity. Qed.

(** C2.  A pattern clause whose matches were all selected by earlier clauses
    is rejected as matching nothing: on ["1,a"] over the single record
    [a/a], the pattern ["a"] matches the path and yet [ParseSelection] fails
    with the no-match error. *)
Theorem ParseSelection_pattern_already_selected :
  matchesPattern (@ToLower ascii_only.strings (Path dep_a)) "a" = true /\
  @ParseSelection ascii_only.strings "a" [dep_a] = Ok [dep_a] /\
  @ParseSelection ascii_only.strings "1,a" [dep_a] = Err (ErrNoPatternMatch "a").
Proof. repeat split. Qed.

(* ----------------------------------------------------------------- *)
(** ** The interactive selection *)

Section SelectFacts.
Context {W : Type} `{UnicodeStrings} `{UIInterface W} `{Stdout W}.

(** The bound on the number of prompts is only a bound: a run that ends
    within it ends in the same way under any larger one. *)
Lemma Select_loop_more_fuel (fuel extra : nat) (deps : list Dependency) (w : W)
    (out : SelectionResult * W) :
  Select_loop fuel deps w = Some out ->
  Select_loop (fuel + extra) deps w = Some out.
Proof.
  revert w. induction fuel as [|fuel IH]; intros w; simpl; [discriminate|].
  destruct (ui_ReadInput "Select dependencies to update" w) as [[input err] w1].
  destruct err as [e|]; [trivial|].
  destruct (TrimSpace input =? "")%string; [trivial|].
  destruct (ParseSelection (TrimSpace input) deps) as [selected|e]; [|apply IH].
  destruct (len selected =? 0); [apply IH|].
  destruct (ui_Confirm _ _) as [[|] w2]; [trivial | apply IH].
Qed.

(** C7.  One round of the selection loop: a failed read ends it with the
    read error as the result's error; an input that is empty once trimmed
    ends it with the cancelled result (no error, nothing selected); a parse
    error does not end it -- the error is reported and the loop goes on with
    the next prompt.  And whenever the loop ends, the result is one of three:
    cancelled, failed on a read error, or a non-empty selection that parsed
    and was confirmed. *)
Theorem Select_loop_terminations (deps : list Dependency) :
  (forall fuel w input e w',
     ui_ReadInput prompt w = ((input, Some e), w') ->
     Select_loop (S fuel) deps w = Some (failed e, w')) /\
  (forall fuel w input w',
     ui_ReadInput prompt w = ((input, None), w') ->
     TrimSpace input = "" ->
     Select_loop (S fuel) deps w = Some (cancelled, w')) /\
  (forall fuel w input w' e,
     ui_ReadInput prompt w = ((input, None), w') ->
     TrimSpace input <> "" ->
     ParseSelection (TrimSpace input) deps = Err e ->
     Select_loop (S fuel) deps w
     = Select_loop fuel deps (ui_Error "Invalid selection: %v" [ArgError e] w')) /\
  (forall fuel w r w',
     Select_loop fuel deps w = Some (r, w') ->
     r = cancelled \/
     (exists e, r = failed e) \/
     (exists input selected,
        ParseSelection input deps = Ok selected /\ selected <> [] /\
        r = accepted selected)).
Proof.
  unfold prompt. split; [|split; [|split]].
  - intros fuel w input e w' Hread. simpl. now rewrite Hread.
  - intros fuel w input w' Hread Hempty. simpl. rewrite Hread, Hempty.
    reflexivity.
  - intros fuel w input w' e Hread Hne Hparse. simpl. rewrite Hread.
    apply String.eqb_neq in Hne. now rewrite Hne, Hparse.
  - induction fuel as [|fuel IH]; intros w r w'; simpl; [discriminate|].
    destruct (ui_ReadInput "Select dependencies to update" w) as [[input err] w1].
    destruct err as [e|].
    { intros [= <- _]. right. left. now exists e. }
    destruct (TrimSpace input =? "")%string.
    { intros [= <- _]. now left. }
    destruct (ParseSelection (TrimSpace input) deps) as [selected|e] eqn:Hparse;
      [|apply IH].
    destruct (len selected =? 0) eqn:Hlen; [apply IH|].
    destruct (ui_Confirm _ _) as [[|] w2]; [|apply IH].
    intros [= <- _]. right. right. exists (TrimSpace input), selected.
    repeat split; [exact Hparse|].
    intros ->. discriminate.
Qed.

(** C9.  On an empty list [Select] returns at once: nothing selected, not
    cancelled, no error -- and the outside world is the one it was given,
    whatever the user interface does when it is called: nothing was
    displayed and nothing was read. *)
Theorem Select_no_dependencies (fuel : nat) (includeIndirect : bool) (w : W) :
  Select fuel [] includeIndirect w
  = Some ({| Selected := []; Cancelled := false; Error := None |}, w).
Proof. reflexivity. Qed.

End SelectFacts.

Lemma Select_loop_terminations_witness :
  (exists w',
     @Select_loop _ ascii_only.strings script.ui 1 [dep_a; dep_b; dep_c]
       (script.start [] [] [])
     = Some (failed (ErrExternal "EOF"), w')) /\
  (exists w',
     @Select_loop _ ascii_only.strings script.ui 1 [dep_a; dep_b; dep_c]
       (script.start [("  ", None)] [] [])
     = Some (cancelled, w')) /\
  (exists w',
     @Select_loop _ ascii_only.strings script.ui 2 [dep_a; dep_b; dep_c]
       (script.start [("9", None); ("", None)] [] [])
     = @Select_loop _ ascii_only.strings script.ui 1 [dep_a; dep_b; dep_c]
         (@ui_Error _ script.ui "Invalid selection: %v"
            [ArgError (ErrNumberOutOfRange 9 3)] w')) /\
  (accepted [dep_a] = cancelled \/
   (exists e, accepted [dep_a] = failed e) \/
   (exists input selected,
      @ParseSelection ascii_only.strings input [dep_a; dep_b; dep_c] = Ok selected /\
      selected <> [] /\ accepted [dep_a] = accepted selected)).
Proof.
  pose proof (@Select_loop_terminations script.World ascii_only.strings script.ui
                [dep_a; dep_b; dep_c]) as (Hfail & Hcancel & Hparse & Honly).
  split; [|split; [|split]].
  - eexists. eapply Hfail. reflexivity.
  - eexists. eapply Hcancel; reflexivity.
  - eexists. eapply Hparse.
    + reflexivity.
    + discriminate.
    + reflexivity.
  - eapply (Honly 2%nat (script.start [("9", None); ("1", None)] [true] [])).
    reflexivity.
Defined.

(** A whole scripted session: an index out of range, then a selection that
    the user declines, then an empty line. *)
Example Select_session :
  let w := script.start [("9", None); ("1,2", None); ("", None)] [false] [] in
  option_map fst
    (@Select _ ascii_only.strings script.ui script.stdout 3
       [dep_a; dep_b; dep_c] false w)
  = Some cancelled.
Proof. reflexivity. Qed.

(* ----------------------------------------------------------------- *)
(** ** The update orchestrator *)

Import updater app.

Lemma len_zero {A : Type} (l : list A) : (len l =? 0) = true <-> l = [].
Proof.
  unfold len. destruct l; simpl; split; try reflexivity; discriminate.
Qed.

Section UpdaterFacts.
Context {W : Type} `{CommandRunner W} `{Console W}.

(** Under the recording runner the loop does what it does under the runner
    below, and the commands it runs are the [go get -u] of the records, one
    each, in the order of the list. *)
Lemma UpdateDependencies_loop_recording (deps : list dependency.Dependency)
    (verbose : bool) (result : UpdateResult) (w : W) (calls : list recording.Call) :
  @UpdateDependencies_loop _ recording.runner deps verbose result (w, calls)
  = (fst (UpdateDependencies_loop deps verbose result w),
     (snd (UpdateDependencies_loop deps verbose result w),
      calls ++ map (go_get verbose) deps)).
Proof.
  revert result w calls.
  induction deps as [|d deps IH]; intros result w calls; simpl.
  - now rewrite app_nil_r.
  - unfold Run at 1, recording.runner at 1.
    destruct (Run "go" ["get"; "-u"; Path d] verbose w) as [[e|] w1];
      rewrite IH, <- app_assoc; reflexivity.
Qed.

Lemma UpdateDependencies_recording (deps : list dependency.Dependency)
    (verbose : bool) (w : W) (calls : list recording.Call) :
  @UpdateDependencies _ recording.runner deps verbose (w, calls)
  = (fst (UpdateDependencies deps verbose w),
     (snd (UpdateDependencies deps verbose w),
      calls ++ map (go_get verbose) deps)).
Proof.
  unfold UpdateDependencies. rewrite UpdateDependencies_loop_recording.
  destruct (UpdateDependencies_loop deps verbose _ w) as [result w1].
  reflexivity.
Qed.

Lemma UpdateDependencies_Success (deps : list dependency.Dependency)
    (verbose : bool) (w : W) :
  Success (fst (UpdateDependencies deps verbose w)) = true <->
  Failed (fst (UpdateDependencies deps verbose w)) = [].
Proof.
  unfold UpdateDependencies.
  destruct (UpdateDependencies_loop deps verbose _ w) as [result w1].
  simpl. apply len_zero.
Qed.

(** The loop sends every record to exactly one of the two lists, at its
    end. *)
Lemma UpdateDependencies_loop_partition (deps : list dependency.Dependency)
    (verbose : bool) (result : UpdateResult) (w : W) :
  exists U F,
    fst (UpdateDependencies_loop deps verbose result w)
    = {| Updated := Updated result ++ U;
         Failed := Failed result ++ F;
         Success := Success result |} /\
    Interleaved U (map Dependency F) deps.
Proof.
  revert result w.
  induction deps as [|d deps IH]; intros result w; simpl.
  - exists [], []. rewrite !app_nil_r. destruct result.
    split; [reflexivity | constructor].
  - destruct (Run "go" ["get"; "-u"; Path d] verbose w) as [[e|] w1].
    + destruct (IH {| Updated := Updated result;
                      Failed := Failed result ++ [ {| Dependency := d; Error := e |} ];
                      Success := Success result |} w1) as (U & F & Heq & Hint).
      exists U, ({| Dependency := d; Error := e |} :: F).
      rewrite Heq. simpl. rewrite <- app_assoc.
      split; [reflexivity | now constructor].
    + destruct (IH {| Updated := Updated result ++ [d];
                      Failed := Failed result;
                      Success := Success result |} w1) as (U & F & Heq & Hint).
      exists (d :: U), F.
      rewrite Heq. simpl. rewrite <- app_assoc.
      split; [reflexivity | now constructor].
Qed.

(** The first loop of [updateWithProgress], under the recording runner. *)
Lemma updateWithProgress_each_recording (i total : Z)
    (deps : list dependency.Dependency) (verbose : bool)
    (allResults : list UpdateResult) (w : W) (calls : list recording.Call) :
  @updateWithProgress_each _ (@goUpdater _ recording.runner) recording.console
     i total deps verbose allResults (w, calls)
  = (fst (@updateWithProgress_each _ goUpdater _ i total deps verbose allResults w),
     (snd (@updateWithProgress_each _ goUpdater _ i total deps verbose allResults w),
      calls ++ map (go_get verbose) deps)).
Proof.
  revert i allResults w calls.
  induction deps as [|d deps IH]; intros i allResults w calls.
  - simpl. now rewrite app_nil_r.
  - cbn [updateWithProgress_each updater_UpdateDependencies goUpdater].
    change (@ProgressBar _ recording.console i total (Path d) (w, calls))
      with (ProgressBar i total (Path d) w, calls).
    rewrite UpdateDependencies_recording.
    destruct (UpdateDependencies [d] verbose (ProgressBar i total (Path d) w))
      as [singleResult w1].
    cbn [fst snd].
    change (@ProgressBar _ recording.console (i + 1) total (Path d)
              (w1, calls ++ map (go_get verbose) [d]))
      with (ProgressBar (i + 1) total (Path d) w1,
            calls ++ map (go_get verbose) [d]).
    rewrite IH. simpl. now rewrite <- app_assoc.
Qed.

Lemma updateWithProgress_each_results (i total : Z)
    (deps : list dependency.Dependency) (verbose : bool)
    (allResults : list UpdateResult) (w : W) :
  Forall (fun r => Success r = true <-> Failed r = []) allResults ->
  Forall (fun r => Success r = true <-> Failed r = [])
    (fst (@updateWithProgress_each _ goUpdater _ i total deps verbose allResults w)).
Proof.
  revert i allResults w.
  induction deps as [|d deps IH]; intros i allResults w Hall; [exact Hall|].
  cbn [updateWithProgress_each updater_UpdateDependencies goUpdater].
  pose proof (UpdateDependencies_Success [d] verbose
                (ProgressBar i total (Path d) w)) as Hsingle.
  destruct (UpdateDependencies [d] verbose (ProgressBar i total (Path d) w))
    as [singleResult w1].
  apply IH, Forall_app. split; [exact Hall|]. now constructor.
Qed.

Lemma updateWithProgress_merge_Success (allResults : list UpdateResult)
    (finalResult : UpdateResult) :
  Forall (fun r => Success r = true <-> Failed r = []) allResults ->
  (Success finalResult = true <-> Failed finalResult = []) ->
  let merged :=
    fold_left
      (fun finalResult result =>
         {| Updated := Updated finalResult ++ Updated result;
            Failed := Failed finalResult ++ Failed result;
            Success := if negb (Success result) then false else Success finalResult |})
      allResults finalResult in
  Success merged = true <-> Failed merged = [].
Proof.
  intros Hall. revert finalResult.
  induction Hall as [|r allResults Hr _ IH]; intros finalResult Hfinal; simpl.
  - exact Hfinal.
  - apply IH. simpl. destruct (Success r); simpl.
    + rewrite Hfinal. split.
      * intros ->. now apply Hr.
      * intros E. now apply app_eq_nil in E.
    + split; [discriminate|].
      intros E. apply app_eq_nil in E as [_ E]. now apply Hr.
Qed.

Lemma updateWithProgress_Success (deps : list dependency.Dependency)
    (verbose : bool) (w : W) :
  Success (fst (@updateWithProgress _ goUpdater _ deps verbose w)) = true <->
  Failed (fst (@updateWithProgress _ goUpdater _ deps verbose w)) = [].
Proof.
  unfold updateWithProgress.
  pose proof (updateWithProgress_each_results 0 (len deps) deps verbose [] w
                (Forall_nil _)) as Hall.
  destruct (updateWithProgress_each 0 (len deps) deps verbose [] w)
    as [allResults w1].
  simpl in *. apply updateWithProgress_merge_Success; [exact Hall|].
  simpl. split; reflexivity.
Qed.

(** C4.  Whatever the commands do, [UpdateDependencies] runs the external
    update of every record of the list, once each and in the order of the
    list -- the failure of one never stops the ones behind it -- and the
    result's [Success] is true exactly when its [Failed] is empty.  The same
    holds for [updateWithProgress], which updates the records one by one
    through [UpdateDependencies] and merges the results. *)
Theorem UpdateDependencies_attempts_all (deps : list dependency.Dependency)
    (verbose : bool) (w : W) (calls : list recording.Call) :
  @UpdateDependencies _ recording.runner deps verbose (w, calls)
  = (fst (UpdateDependencies deps verbose w),
     (snd (UpdateDependencies deps verbose w),
      calls ++ map (go_get verbose) deps)) /\
  (Success (fst (UpdateDependencies deps verbose w)) = true <->
   Failed (fst (UpdateDependencies deps verbose w)) = []) /\
  @updateWithProgress _ (@goUpdater _ recording.runner) recording.console
     deps verbose (w, calls)
  = (fst (@updateWithProgress _ goUpdater _ deps verbose w),
     (snd (@updateWithProgress _ goUpdater _ deps verbose w),
      calls ++ map (go_get verbose) deps)) /\
  (Success (fst (@updateWithProgress _ goUpdater _ deps verbose w)) = true <->
   Failed (fst (@updateWithProgress _ goUpdater _ deps verbose w)) = []).
Proof.
  split; [apply UpdateDependencies_recording|].
  split; [apply UpdateDependencies_Success|].
  split; [|apply updateWithProgress_Success].
  unfold updateWithProgress. rewrite updateWithProgress_each_recording.
  replace (@len dependency.Dependency deps) with (len deps) by reflexivity.
  destruct (@updateWithProgress_each _ goUpdater _ 0 (len deps) deps verbose [] w)
    as [allResults w1].
  reflexivity.
Qed.

(** C10.  The result of [UpdateDependencies] partitions its input: every
    record of the list goes to exactly one of [Updated] and [Failed], and
    both keep the order of the list.  Hence the two lengths add up to the
    length of the input, the two lists together are a permutation of it, and
    each of them is the input with some records left out. *)
Theorem UpdateDependencies_partition (deps : list dependency.Dependency)
    (verbose : bool) (w : W) :
  let result := fst (UpdateDependencies deps verbose w) in
  Interleaved (Updated result) (map Dependency (Failed result)) deps /\
  len (Updated result) + len (Failed result) = len deps /\
  Permutation (Updated result ++ map Dependency (Failed result)) deps /\
  Subseq (Updated result) deps /\
  Subseq (map Dependency (Failed result)) deps.
Proof.
  unfold UpdateDependencies.
  destruct (UpdateDependencies_loop_partition deps verbose
              {| Updated := []; Failed := []; Success := false |} w)
    as (U & F & Heq & Hint).
  destruct (UpdateDependencies_loop deps verbose _ w) as [result w1].
  simpl in Heq. subst result. simpl.
  split; [exact Hint|].
  split; [|split].
  - apply Interleaved_length in Hint. rewrite length_map in Hint.
    unfold len. lia.
  - now apply Interleaved_Permutation.
  - now apply Interleaved_Subseq.
Qed.

End UpdaterFacts.

(** The scenario of the specification: of three records the second fails to
    update; the third is attempted all the same. *)
Example UpdateDependencies_second_fails :
  let out := @UpdateDependencies _ script.runner [dep_a; dep_b; dep_c] false
               (script.start [] [] ["b/b"]) in
  Updated (fst out) = [dep_a; dep_c] /\
  map Dependency (Failed (fst out)) = [dep_b] /\
  Success (fst out) = false /\
  script.trace (snd out)
  = [script.EvRun "go" ["get"; "-u"; "a/a"] false;
     script.EvRun "go" ["get"; "-u"; "b/b"] false;
     script.EvRun "go" ["get"; "-u"; "c/c"] false].
Proof. repeat split. Qed.

(* ================================================================= *)
(** * Further properties of the code *)

(* ----------------------------------------------------------------- *)
(** ** Strings: prefixes, occurrences, cuts *)

Lemma append_nil_r (s : string) : (s ++ "")%string = s.
Proof. induction s as [|c s IH]; simpl; [reflexivity | now rewrite IH]. Qed.

Lemma append_assoc (a b c : string) :
  ((a ++ b) ++ c)%string = (a ++ b ++ c)%string.
Proof. induction a as [|x a IH]; simpl; [reflexivity | now rewrite IH]. Qed.

Lemma length_append (a b : string) :
  String.length (a ++ b) = (String.length a + String.length b)%nat.
Proof. induction a as [|x a IH]; simpl; [reflexivity | now rewrite IH]. Qed.

Lemma prefix_occurs (p s : string) :
  String.prefix p s = true <-> exists post, s = (p ++ post)%string.
Proof.
  revert s. induction p as [|c p IH]; intros s.
  - destruct s; simpl; (split; [intros _; eexists; reflexivity | reflexivity]).
  - destruct s as [|d s]; simpl.
    + split; [discriminate | intros (post & E); discriminate].
    + destruct (ascii_dec c d) as [->|Hcd].
      * rewrite IH. split; intros (post & E); exists post; congruence.
      * split; [discriminate | intros (post & E); congruence].
Qed.

Lemma take_drop (n : nat) (s : string) :
  (strings.take n s ++ strings.drop n s)%string = s.
Proof.
  revert s. induction n as [|n IH]; intros [|c s]; simpl; try reflexivity.
  now rewrite IH.
Qed.

Lemma drop_add (a b : nat) (s : string) :
  strings.drop (a + b) s = strings.drop b (strings.drop a s).
Proof.
  revert s. induction a as [|a IH]; intros s; simpl; [reflexivity|].
  destruct s as [|c s]; [|apply IH].
  destruct b; reflexivity.
Qed.

Lemma drop_append (n : nat) (a b : string) :
  (n <= String.length a)%nat ->
  strings.drop n (a ++ b) = (strings.drop n a ++ b)%string.
Proof.
  revert a. induction n as [|n IH]; intros a Hn; simpl; [reflexivity|].
  destruct a as [|c a]; simpl in *; [lia|]. apply IH. lia.
Qed.

Lemma take_append_length (a b : string) :
  strings.take (String.length a) (a ++ b) = a.
Proof. induction a as [|c a IH]; simpl; [now destruct b | now rewrite IH]. Qed.

Lemma drop_append_length (a b : string) :
  strings.drop (String.length a) (a ++ b) = b.
Proof. induction a as [|c a IH]; simpl; [reflexivity | exact IH]. Qed.

Lemma index_opt_eq (s sub : string) :
  strings.index_opt s sub
  = if strings.HasPrefix s sub then Some O
    else match s with
         | EmptyString => None
         | String _ s' => option_map S (strings.index_opt s' sub)
         end.
Proof. destruct s; reflexivity. Qed.

Lemma HasPrefix_occurs (s sub : string) :
  strings.HasPrefix s sub = true <-> exists post, s = (sub ++ post)%string.
Proof. apply prefix_occurs. Qed.

(** [index_opt] finds an occurrence ... *)
Lemma index_opt_Some (s sub : string) (i : nat) :
  strings.index_opt s sub = Some i ->
  s = (strings.take i s ++ sub ++ strings.drop (i + String.length sub) s)%string.
Proof.
  revert i. induction s as [|c s IH]; intros i; rewrite index_opt_eq.
  - destruct (strings.HasPrefix "" sub) eqn:Hp; [|discriminate].
    intros [= <-]. apply HasPrefix_occurs in Hp as (post & E).
    destruct sub; [reflexivity | discriminate].
  - destruct (strings.HasPrefix (String c s) sub) eqn:Hp.
    + intros [= <-]. apply HasPrefix_occurs in Hp as (post & E).
      cbn [strings.take Nat.add append]. rewrite E at 1. f_equal.
      rewrite E. now rewrite drop_append_length.
    + destruct (strings.index_opt s sub) as [j|] eqn:Hj; [|discriminate].
      simpl. intros [= <-]. simpl. f_equal. now apply IH.
Qed.

(** ... the leftmost one ... *)
Lemma index_opt_least (s sub pre post : string) (i : nat) :
  strings.index_opt s sub = Some i ->
  s = (pre ++ sub ++ post)%string ->
  (i <= String.length pre)%nat.
Proof.
  revert i pre. induction s as [|c s IH]; intros i pre; rewrite index_opt_eq.
  - destruct (strings.HasPrefix "" sub); [|discriminate].
    intros [= <-] _. lia.
  - destruct (strings.HasPrefix (String c s) sub) eqn:Hp.
    + intros [= <-] _. lia.
    + destruct (strings.index_opt s sub) as [j|] eqn:Hj; [|discriminate].
      simpl. intros [= <-] E.
      destruct pre as [|d pre]; simpl in E.
      * exfalso.
        assert (strings.HasPrefix (String c s) sub = true)
          by (apply HasPrefix_occurs; now exists post).
        congruence.
      * injection E as -> E. simpl. apply le_n_S. now apply (IH j pre).
Qed.

(** ... and finds one whenever there is one. *)
Lemma index_opt_None (s sub : string) :
  strings.index_opt s sub = None -> ~ occurs sub s.
Proof.
  induction s as [|c s IH]; rewrite index_opt_eq.
  - destruct (strings.HasPrefix "" sub) eqn:Hp; [discriminate|].
    intros _ (pre & post & E).
    destruct pre; [|discriminate]. simpl in E.
    assert (strings.HasPrefix "" sub = true)
      by (apply HasPrefix_occurs; now exists post).
    congruence.
  - destruct (strings.HasPrefix (String c s) sub) eqn:Hp; [discriminate|].
    destruct (strings.index_opt s sub) as [j|] eqn:Hj; [discriminate|].
    intros _ (pre & post & E).
    destruct pre as [|d pre]; simpl in E.
    + assert (strings.HasPrefix (String c s) sub = true)
        by (apply HasPrefix_occurs; now exists post).
      congruence.
    + injection E as _ E. apply IH; [reflexivity|]. now exists pre, post.
Qed.

Lemma Index_range (s sub : string) : -1 <= strings.Index s sub.
Proof. unfold strings.Index. destruct (strings.index_opt s sub); lia. Qed.

Lemma Contains_occurs (s sub : string) :
  strings.Contains s sub = true <-> occurs sub s.
Proof.
  unfold strings.Contains, strings.Index.
  destruct (strings.index_opt s sub) as [i|] eqn:Hi.
  - split; [intros _ | intros _; apply Z.leb_le; lia].
    exists (strings.take i s), (strings.drop (i + String.length sub) s).
    now apply index_opt_Some.
  - split; [discriminate|]. intros Hocc.
    now apply index_opt_None in Hi.
Qed.

Lemma occur_in_order_extend (parts : list string) (x post : string) :
  occur_in_order parts post -> occur_in_order parts (x ++ post)%string.
Proof.
  induction parts as [|part rest IH]; simpl; [trivial|].
  destruct (part =? "")%string; [exact IH|].
  intros (pre & post' & -> & Hrest).
  exists (x ++ pre)%string, post'. split; [|exact Hrest].
  now rewrite append_assoc.
Qed.

(** The loop of [matchesPattern] succeeds exactly when the pieces occur in
    order in what is left of the path. *)
Lemma matchesPattern_loop_spec (parts : list string) (path : string) (index : Z) :
  0 <= index ->
  selector.matchesPattern_loop parts path index = true <->
  occur_in_order parts (strings.drop (Z.to_nat index) path).
Proof.
  revert index. induction parts as [|part rest IH]; intros index Hindex; simpl.
  - split; trivial.
  - destruct (part =? "")%string; [now apply IH|].
    unfold strings.Index.
    destruct (strings.index_opt (strings.drop (Z.to_nat index) path) part)
      as [n|] eqn:Hn.
    + replace (Z.of_nat n =? -1) with false by (symmetry; apply Z.eqb_neq; lia).
      rewrite IH by lia.
      replace (Z.to_nat (index + (Z.of_nat n + Z.of_nat (String.length part))))
        with (Z.to_nat index + (n + String.length part))%nat by lia.
      rewrite drop_add. set (s := strings.drop (Z.to_nat index) path) in *.
      split.
      * intros Hrest. exists (strings.take n s), (strings.drop (n + String.length part) s).
        split; [now apply index_opt_Some | exact Hrest].
      * intros (pre & post & E & Hrest).
        pose proof (index_opt_least _ _ _ _ _ Hn E) as Hle.
        rewrite E at 1. rewrite <- append_assoc.
        rewrite drop_append by (rewrite length_append; lia).
        now apply occur_in_order_extend.
    + simpl. split; [discriminate|].
      intros (pre & post & E & _). exfalso.
      apply (index_opt_None _ _ Hn). now exists pre, post.
Qed.

(** X1.  [matchesPattern] decides containment for a pattern without ['*'];
    for a pattern with wildcards it holds exactly when the non-empty pieces
    between the wildcards occur in the path in that order, one after the
    end of the other, with anything before, between and behind them. *)
Theorem matchesPattern_spec (path pattern : string) :
  selector.matchesPattern path pattern = true <->
  if strings.Contains pattern "*"
  then occur_in_order (strings.Split pattern "*") path
  else occurs pattern path.
Proof.
  unfold selector.matchesPattern.
  destruct (strings.Contains pattern "*"); simpl.
  - now rewrite matchesPattern_loop_spec by lia.
  - apply Contains_occurs.
Qed.

(* ----------------------------------------------------------------- *)
(** ** Splitting at the wildcard *)

Lemma Contains_false (s sub : string) :
  strings.Contains s sub = false <-> strings.index_opt s sub = None.
Proof.
  unfold strings.Contains, strings.Index.
  destruct (strings.index_opt s sub) as [i|]; split; try discriminate;
    try reflexivity.
  intros Hi. apply Z.leb_gt in Hi. lia.
Qed.

Lemma genSplit_no_separator (fuel : nat) (s sep : string) :
  strings.index_opt s sep = None -> strings.genSplit fuel s sep = [s].
Proof. intros Hs. destruct fuel; simpl; [reflexivity | now rewrite Hs]. Qed.

Lemma index_opt_star_nil : strings.index_opt "" "*" = None.
Proof. reflexivity. Qed.

Lemma index_opt_star_cons (c : ascii) (s : string) :
  strings.index_opt (String c s) "*"
  = if Ascii.eqb c "*"%char then Some O
    else option_map S (strings.index_opt s "*").
Proof.
  rewrite index_opt_eq.
  destruct (strings.HasPrefix (String c s) "*") eqn:Hp.
  - apply HasPrefix_occurs in Hp as (post & E). simpl in E.
    injection E as -> _. now rewrite Ascii.eqb_refl.
  - destruct (Ascii.eqb_spec c "*"%char) as [->|_]; [|reflexivity].
    assert (strings.HasPrefix (String "*"%char s) "*" = true)
      by (apply HasPrefix_occurs; now exists s).
    congruence.
Qed.

(** In [p ++ "*" ++ q], where [p] has no wildcard, the first wildcard is the
    one behind [p]. *)
Lemma index_opt_star_append (p q : string) :
  strings.index_opt p "*" = None ->
  strings.index_opt (p ++ String "*"%char q) "*" = Some (String.length p).
Proof.
  induction p as [|c p IH]; cbn [append String.length].
  - intros _. now rewrite index_opt_star_cons.
  - rewrite !index_opt_star_cons.
    destruct (Ascii.eqb c "*"%char); [discriminate|].
    destruct (strings.index_opt p "*") eqn:Hp; [discriminate|].
    intros _. now rewrite IH.
Qed.

Lemma Split_star_right (p : string) :
  strings.index_opt p "*" = None ->
  strings.Split (p ++ "*") "*" = [p; ""].
Proof.
  intros Hp. unfold strings.Split. rewrite length_append.
  replace (String.length p + String.length "*")%nat
    with (S (String.length p)) by (simpl; lia).
  cbn [strings.genSplit]. rewrite (index_opt_star_append p "" Hp).
  rewrite take_append_length, drop_add, drop_append_length. simpl.
  now rewrite genSplit_no_separator.
Qed.

Lemma Split_star_left (p : string) :
  strings.index_opt p "*" = None ->
  strings.Split (String "*"%char p) "*" = [""; p].
Proof.
  intros Hp. unfold strings.Split.
  cbn [String.length strings.genSplit]. rewrite index_opt_star_cons. simpl.
  now rewrite genSplit_no_separator.
Qed.

Lemma Split_star_both (p : string) :
  strings.index_opt p "*" = None ->
  strings.Split (String "*"%char (p ++ "*")) "*" = [""; p; ""].
Proof.
  intros Hp. unfold strings.Split.
  cbn [String.length strings.genSplit]. rewrite index_opt_star_cons. simpl.
  f_equal. apply Split_star_right in Hp. exact Hp.
Qed.

Lemma genSplit_only_wildcards (fuel : nat) (s : string) :
  only_wildcards s = true -> (String.length s <= fuel)%nat ->
  Forall (fun part => part = "") (strings.genSplit fuel s "*").
Proof.
  revert s. induction fuel as [|fuel IH]; intros s Hs Hlen.
  - destruct s; simpl in Hlen; [|lia]. repeat constructor.
  - destruct s as [|c s]; [repeat constructor|].
    simpl in Hs. apply andb_true_iff in Hs as [Hc Hs].
    cbn [strings.genSplit]. rewrite index_opt_star_cons, Hc. simpl.
    constructor; [reflexivity|]. apply IH; [exact Hs | simpl in Hlen; lia].
Qed.

Lemma matchesPattern_loop_empty_parts (parts : list string) (path : string) (index : Z) :
  Forall (fun part => part = "") parts ->
  selector.matchesPattern_loop parts path index = true.
Proof.
  induction 1 as [|part parts -> _ IH]; simpl; [reflexivity | exact IH].
Qed.

Lemma Contains_empty (path : string) : strings.Contains path "" = true.
Proof.
  apply Contains_occurs. exists "", path. reflexivity.
Qed.

(** What the loop makes of a single piece, whatever empty pieces stand
    around it. *)
Lemma matchesPattern_loop_single (p path : string) :
  selector.matchesPattern_loop [p] path 0 = strings.Contains path p /\
  selector.matchesPattern_loop [p; ""] path 0 = strings.Contains path p /\
  selector.matchesPattern_loop [""; p] path 0 = strings.Contains path p /\
  selector.matchesPattern_loop [""; p; ""] path 0 = strings.Contains path p.
Proof.
  simpl. destruct (String.eqb_spec p "") as [->|Hp].
  - now rewrite Contains_empty.
  - unfold strings.Contains. pose proof (Index_range path p) as Hr.
    destruct (Z.eqb_spec (strings.Index path p) (-1)) as [E|E].
    + rewrite E. repeat split.
    + replace (0 <=? strings.Index path p) with true
        by (symmetry; apply Z.leb_le; lia).
      repeat split.
Qed.

(** X2.  The empty pattern and every pattern made of wildcards only match
    every path. *)
Theorem matchesPattern_only_wildcards (path pattern : string) :
  only_wildcards pattern = true ->
  selector.matchesPattern path pattern = true.
Proof.
  intros Hw. unfold selector.matchesPattern.
  destruct (strings.Contains pattern "*") eqn:Hstar.
  - simpl. apply matchesPattern_loop_empty_parts.
    now apply genSplit_only_wildcards.
  - simpl. destruct pattern as [|c rest]; [apply Contains_empty|].
    simpl in Hw. apply andb_true_iff in Hw as [Hc _].
    apply Ascii.eqb_eq in Hc. subst c.
    assert (strings.Contains (String "*"%char rest) "*" = true)
      by (apply Contains_occurs; now exists "", rest).
    congruence.
Qed.

Lemma matchesPattern_only_wildcards_witness :
  only_wildcards "**" = true /\
  selector.matchesPattern "github.com/gin-gonic/gin" "**" = true.
Proof.
  split; [reflexivity|].
  apply (matchesPattern_only_wildcards "github.com/gin-gonic/gin" "**").
  reflexivity.
Defined.

(** X3.  Wildcards at the ends of a pattern change nothing, so a pattern is
    never anchored: for [p] without wildcard, the patterns [p*], [*p] and
    [*p*] match exactly the paths that contain [p] -- also those that do not
    begin or end with it. *)
Theorem matchesPattern_unanchored (path p : string) :
  strings.Contains p "*" = false ->
  selector.matchesPattern path (p ++ "*") = strings.Contains path p /\
  selector.matchesPattern path ("*" ++ p) = strings.Contains path p /\
  selector.matchesPattern path ("*" ++ p ++ "*") = strings.Contains path p.
Proof.
  intros Hp. apply Contains_false in Hp.
  pose proof (matchesPattern_loop_single p path) as (_ & Hr & Hl & Hb).
  unfold selector.matchesPattern.
  assert (Hc1 : strings.Contains (p ++ "*") "*" = true)
    by (apply Contains_occurs; now exists p, "").
  assert (Hc2 : strings.Contains ("*" ++ p) "*" = true)
    by (apply Contains_occurs; now exists "", p).
  assert (Hc3 : strings.Contains ("*" ++ p ++ "*") "*" = true)
    by (apply Contains_occurs; now exists "", (p ++ "*")%string).
  rewrite Hc1, Hc2, Hc3. simpl.
  rewrite (Split_star_right p Hp), (Split_star_left p Hp), (Split_star_both p Hp).
  now rewrite Hr, Hl, Hb.
Qed.

Lemma matchesPattern_unanchored_witness :
  strings.Contains "gin" "*" = false /\
  selector.matchesPattern "github.com/gin-gonic/gin" "gin*"
    = strings.Contains "github.com/gin-gonic/gin" "gin" /\
  selector.matchesPattern "github.com/gin-gonic/gin" "*gin"
    = strings.Contains "github.com/gin-gonic/gin" "gin" /\
  selector.matchesPattern "github.com/gin-gonic/gin" "*gin*"
    = strings.Contains "github.com/gin-gonic/gin" "gin".
Proof.
  split; [reflexivity|].
  apply (matchesPattern_unanchored "github.com/gin-gonic/gin" "gin").
  reflexivity.
Defined.

(* ----------------------------------------------------------------- *)
(** ** The selection parser, clause by clause *)

Import dependency selector.

Lemma matchesPattern_empty (path : string) : matchesPattern path "" = true.
Proof. unfold matchesPattern. simpl. apply Contains_empty. Qed.

Section ParserClauses.
Context `{UnicodeStrings}.

Lemma parseRange_loop_grows (count : nat) (i : Z) (deps rangeDeps r : list Dependency) :
  parseRange_loop count i deps rangeDeps = Ok r ->
  exists added, r = rangeDeps ++ added /\ incl added deps.
Proof.
  revert i rangeDeps. induction count as [|count IH]; intros i rangeDeps; simpl.
  - intros [= <-]. exists []. rewrite app_nil_r. split; [reflexivity|].
    intros x [].
  - destruct (nth_error deps (Z.to_nat i)) as [d|] eqn:Hd; [|discriminate].
    intros Hr. apply IH in Hr as (added & -> & Hincl).
    exists (d :: added). rewrite <- app_assoc. split; [reflexivity|].
    intros x [<-|Hx]; [now apply nth_error_In in Hd | now apply Hincl].
Qed.

Lemma parseRange_incl (part : string) (deps r : list Dependency) :
  parseRange part deps = Ok r -> incl r deps.
Proof.
  unfold parseRange.
  destruct (strings.Split part "-") as [|t0 [|t1 [|t2 ts]]]; try discriminate.
  destruct (strconv.Atoi (TrimSpace t0)) as [start|]; [|discriminate].
  destruct (strconv.Atoi (TrimSpace t1)) as [stop|]; [|discriminate].
  destruct ((start <? 1) || (stop >? len deps) || (start >? stop)); [discriminate|].
  intros Hr. apply parseRange_loop_grows in Hr as (added & -> & Hincl).
  exact Hincl.
Qed.

Lemma parseRange_returns (part : string) (deps : list Dependency) :
  returns_normally (parseRange part deps).
Proof.
  unfold parseRange.
  destruct (strings.Split part "-") as [|t0 [|t1 [|t2 ts]]]; try exact I.
  destruct (strconv.Atoi (TrimSpace t0)) as [start|]; [|exact I].
  destruct (strconv.Atoi (TrimSpace t1)) as [stop|]; [|exact I].
  destruct ((start <? 1) || (stop >? len deps) || (start >? stop)) eqn:E;
    [exact I|].
  apply orb_false_iff in E as [E E3]. apply orb_false_iff in E as [E1 E2].
  unfold len in E2. rewrite parseRange_loop_slice by lia. exact I.
Qed.

(** What a pattern adds stands behind what was selected, comes from the
    list in the order of the list, and matches the pattern. *)
Lemma matchPattern_grows (pattern : string) (deps selected : list Dependency)
    (matched : bool) :
  exists added,
    snd (matchPattern pattern deps selected matched) = selected ++ added /\
    Subseq added deps /\
    Forall (fun d => matches pattern d = true) added.
Proof.
  revert selected matched.
  induction deps as [|d deps IH]; intros selected matched; simpl.
  - exists []. rewrite app_nil_r. repeat constructor.
  - destruct (matchesPattern (ToLower (Path d)) pattern) eqn:Hm.
    + destruct (containsDependency selected d); simpl.
      * destruct (IH selected matched) as (added & E & Hsub & Hall).
        exists added. repeat split; [exact E | now constructor | exact Hall].
      * destruct (IH (selected ++ [d]) true) as (added & E & Hsub & Hall).
        exists (d :: added). rewrite E, <- app_assoc.
        repeat split; [now constructor | now constructor].
    + destruct (IH selected matched) as (added & E & Hsub & Hall).
      exists added. repeat split; [exact E | now constructor | exact Hall].
Qed.

Lemma Subseq_incl {A : Type} (s l : list A) : Subseq s l -> incl s l.
Proof.
  induction 1 as [|x s l _ IH|x s l _ IH].
  - intros x [].
  - intros y [<-|Hy]; [now left | right; now apply IH].
  - intros y Hy. right. now apply IH.
Qed.

(** On a list with distinct paths, a pattern adds exactly the matching
    records that are not selected yet. *)
Lemma matchPattern_unique (pattern : string) (deps selected : list Dependency)
    (matched : bool) :
  unique_paths deps ->
  snd (matchPattern pattern deps selected matched)
  = selected ++ filter (fun d => matches pattern d
                                 && negb (containsDependency selected d)) deps.
Proof.
  unfold unique_paths, matches. revert selected matched.
  induction deps as [|d deps IH]; intros selected matched Huniq; simpl.
  - now rewrite app_nil_r.
  - apply NoDup_cons_iff in Huniq as [Hd Huniq].
    destruct (matchesPattern (ToLower (Path d)) pattern) eqn:Hm; simpl.
    + destruct (containsDependency selected d) eqn:Hc; simpl.
      * now apply IH.
      * rewrite IH by exact Huniq.
        assert (Hext : filter (fun x => matchesPattern (ToLower (Path x)) pattern
                                        && negb (containsDependency (selected ++ [d]) x)) deps
                       = filter (fun x => matchesPattern (ToLower (Path x)) pattern
                                          && negb (containsDependency selected x)) deps).
        { apply filter_ext_in. intros x Hx.
          rewrite containsDependency_app. simpl.
          destruct (String.eqb_spec (Path d) (Path x)) as [E|_].
          - exfalso. apply Hd. rewrite E. now apply in_map.
          - now rewrite orb_false_r. }
        now rewrite Hext, <- app_assoc.
    + now apply IH.
Qed.

Lemma existsb_filter {A : Type} (f : A -> bool) (l : list A) :
  existsb f l = match filter f l with [] => false | _ :: _ => true end.
Proof.
  induction l as [|x l IH]; simpl; [reflexivity|].
  destruct (f x); [reflexivity | exact IH].
Qed.

Lemma ParseSelection_loop_grows (parts : list string)
    (deps selected r : list Dependency) :
  ParseSelection_loop parts deps selected = Ok r ->
  exists added, r = selected ++ added /\ incl added deps.
Proof.
  revert selected. induction parts as [|part parts IH]; intros selected;
    cbn [ParseSelection_loop].
  - intros [= <-]. exists []. rewrite app_nil_r. split; [reflexivity|].
    intros x [].
  - destruct (strings.Contains (TrimSpace part) "-").
    + destruct (parseRange (TrimSpace part) deps) as [rangeDeps|e] eqn:Hr;
        [|discriminate].
      apply parseRange_incl in Hr.
      intros Hloop. apply IH in Hloop as (added & -> & Hincl).
      exists (rangeDeps ++ added). rewrite <- app_assoc.
      split; [reflexivity|]. now apply incl_app.
    + destruct (strconv.Atoi (TrimSpace part)) as [num|].
      * destruct ((num <? 1) || (num >? len deps)); [discriminate|].
        destruct (nth_error deps (Z.to_nat (num - 1))) as [d|] eqn:Hd;
          [|discriminate].
        apply nth_error_In in Hd.
        destruct (negb (containsDependency selected d)).
        -- intros Hloop. apply IH in Hloop as (added & -> & Hincl).
           exists (d :: added). rewrite <- app_assoc.
           split; [reflexivity|]. intros x [<-|Hx]; [exact Hd | now apply Hincl].
        -- apply IH.
      * destruct (matchPattern_grows (TrimSpace part) deps selected false)
          as (added0 & E & Hsub & _).
        destruct (matchPattern (TrimSpace part) deps selected false)
          as [matched selected'].
        simpl in E. subst selected'.
        destruct (negb matched); [discriminate|].
        intros Hloop. apply IH in Hloop as (added & -> & Hincl).
        exists (added0 ++ added). rewrite <- app_assoc.
        split; [reflexivity|].
        apply incl_app; [now apply Subseq_incl | exact Hincl].
Qed.

Lemma ParseSelection_loop_returns (parts : list string)
    (deps selected : list Dependency) :
  returns_normally (ParseSelection_loop parts deps selected).
Proof.
  revert selected. induction parts as [|part parts IH]; intros selected;
    cbn [ParseSelection_loop]; [exact I|].
  destruct (strings.Contains (TrimSpace part) "-").
  - pose proof (parseRange_returns (TrimSpace part) deps) as Hr.
    destruct (parseRange (TrimSpace part) deps); [apply IH | exact Hr].
  - destruct (strconv.Atoi (TrimSpace part)) as [num|].
    + destruct ((num <? 1) || (num >? len deps)) eqn:E; [exact I|].
      apply orb_false_iff in E as [E1 E2].
      destruct (nth_error deps (Z.to_nat (num - 1))) as [d|] eqn:Hd.
      * destruct (negb (containsDependency selected d)); apply IH.
      * apply nth_error_None in Hd. unfold len in E2. lia.
    + destruct (matchPattern (TrimSpace part) deps selected false)
        as [matched selected'].
      destruct (negb matched); [exact I | apply IH].
Qed.

(** X4.  A selection only grows, and only by records of the list: every
    clause leaves what the earlier clauses selected in place and appends
    records of [deps] behind it; so whatever [ParseSelection] returns are
    records of the list it was given. *)
Theorem ParseSelection_selects_from_deps (deps : list Dependency) :
  (forall parts selected r,
     ParseSelection_loop parts deps selected = Ok r ->
     exists added, r = selected ++ added /\ incl added deps) /\
  (forall input r, ParseSelection input deps = Ok r -> incl r deps).
Proof.
  split.
  - intros parts selected r. apply ParseSelection_loop_grows.
  - intros input r. unfold ParseSelection.
    destruct (ToLower (TrimSpace input) =? "all")%string.
    + intros [= <-]. apply incl_refl.
    + intros Hr. apply ParseSelection_loop_grows in Hr as (added & -> & Hincl).
      exact Hincl.
Qed.

(** X5.  [ParseSelection] never indexes outside the list: whatever the
    input, the result is a selection or one of the parser's errors, never a
    runtime panic. *)
Theorem ParseSelection_never_panics (input : string) (deps : list Dependency) :
  returns_normally (ParseSelection input deps).
Proof.
  unfold ParseSelection.
  destruct (ToLower (TrimSpace input) =? "all")%string; [exact I|].
  apply ParseSelection_loop_returns.
Qed.

(** X6.  Clauses compose from left to right: parsing [parts1 ++ parts2] is
    parsing [parts1] and then [parts2] from the selection so far; when a
    clause of [parts1] is rejected, its error is the result and nothing
    behind it is looked at. *)
Theorem ParseSelection_loop_composes (parts1 parts2 : list string)
    (deps selected : list Dependency) :
  ParseSelection_loop (parts1 ++ parts2) deps selected
  = match ParseSelection_loop parts1 deps selected with
    | Ok selected1 => ParseSelection_loop parts2 deps selected1
    | Err e => Err e
    end.
Proof.
  revert selected. induction parts1 as [|part parts1 IH]; intros selected.
  - reflexivity.
  - cbn [app ParseSelection_loop].
    destruct (strings.Contains (TrimSpace part) "-").
    + destruct (parseRange (TrimSpace part) deps); [apply IH | reflexivity].
    + destruct (strconv.Atoi (TrimSpace part)) as [num|].
      * destruct ((num <? 1) || (num >? len deps)); [reflexivity|].
        destruct (nth_error deps (Z.to_nat (num - 1))); [|reflexivity].
        destruct (negb (containsDependency selected d)); apply IH.
      * destruct (matchPattern (TrimSpace part) deps selected false)
          as [matched selected'].
        destruct (negb matched); [reflexivity | apply IH].
Qed.

(** X7.  A number clause [n] is rejected when [n < 1] or [n > len(deps)];
    otherwise it stands for the record at the 1-based position [n], which is
    appended unless a record with its path is selected already. *)
Theorem number_clause_spec (part : string) (rest : list string)
    (deps selected : list Dependency) (n : Z) :
  strings.Contains (TrimSpace part) "-" = false ->
  strconv.Atoi (TrimSpace part) = Some n ->
  (n < 1 \/ n > len deps ->
   ParseSelection_loop (part :: rest) deps selected
   = Err (ErrNumberOutOfRange n (len deps))) /\
  (1 <= n <= len deps ->
   exists d,
     nth_error deps (Z.to_nat (n - 1)) = Some d /\
     ParseSelection_loop (part :: rest) deps selected
     = ParseSelection_loop rest deps
         (if containsDependency selected d then selected else selected ++ [d])).
Proof.
  intros Hdash Hnum. cbn [ParseSelection_loop]. rewrite Hdash, Hnum. split.
  - intros Hbad.
    replace ((n <? 1) || (n >? len deps)) with true; [reflexivity|].
    symmetry. apply orb_true_iff. destruct Hbad; [left | right]; lia.
  - intros Hin.
    replace ((n <? 1) || (n >? len deps)) with false
      by (symmetry; apply orb_false_iff; lia).
    destruct (nth_error deps (Z.to_nat (n - 1))) as [d|] eqn:Hd.
    + exists d. split; [reflexivity|].
      now destruct (containsDependency selected d).
    + apply nth_error_None in Hd. unfold len in Hin. lia.
Qed.

(** X8.  On a list with distinct paths, a pattern clause appends the
    records that match the pattern and are not selected yet, in the order of
    the list; when there is none -- nothing matches, or every match is
    selected already -- the clause is rejected with the no-match error. *)
Theorem pattern_clause_spec (part : string) (rest : list string)
    (deps selected : list Dependency) :
  strings.Contains (TrimSpace part) "-" = false ->
  strconv.Atoi (TrimSpace part) = None ->
  unique_paths deps ->
  ParseSelection_loop (part :: rest) deps selected
  = match filter (fun d => matches (TrimSpace part) d
                           && negb (containsDependency selected d)) deps with
    | [] => Err (ErrNoPatternMatch (TrimSpace part))
    | d :: fresh => ParseSelection_loop rest deps (selected ++ d :: fresh)
    end.
Proof.
  intros Hdash Hnum Huniq. cbn [ParseSelection_loop]. rewrite Hdash, Hnum.
  pose proof (matchPattern_matched (TrimSpace part) deps selected false) as Hfst.
  pose proof (matchPattern_unique (TrimSpace part) deps selected false Huniq) as Hsnd.
  destruct (matchPattern (TrimSpace part) deps selected false)
    as [matched selected'].
  cbn [fst snd] in Hfst, Hsnd. subst matched selected'.
  rewrite existsb_filter. unfold matches.
  destruct (filter _ deps); reflexivity.
Qed.

(** X9.  An empty clause is a pattern that every path matches: on a
    non-empty list with distinct paths, an empty first clause (as in the
    input [",1"]) selects the whole list. *)
Theorem empty_clause_selects_all (part : string) (rest : list string)
    (deps : list Dependency) :
  TrimSpace part = "" ->
  unique_paths deps ->
  deps <> [] ->
  ParseSelection_loop (part :: rest) deps [] = ParseSelection_loop rest deps deps.
Proof.
  intros Hpart Huniq Hne. cbn [ParseSelection_loop]. rewrite Hpart.
  change (strings.Contains "" "-") with false.
  change (strconv.Atoi "") with (@None Z). cbv iota.
  pose proof (matchPattern_matched "" deps [] false) as Hfst.
  pose proof (matchPattern_unique "" deps [] false Huniq) as Hsnd.
  destruct (matchPattern "" deps [] false) as [matched selected'].
  cbn [fst snd] in Hfst, Hsnd. subst matched selected'.
  unfold matches.
  assert (Hall : filter (fun d => matchesPattern (ToLower (Path d)) ""
                                  && negb (containsDependency [] d)) deps = deps).
  { apply filter_all, Forall_forall. intros d _.
    now rewrite matchesPattern_empty. }
  rewrite existsb_filter, Hall. destruct deps; [contradiction | reflexivity].
Qed.

End ParserClauses.

Lemma ParseSelection_selects_from_deps_witness :
  @ParseSelection ascii_only.strings "2-3,a*" [dep_a; dep_b; dep_c]
    = Ok [dep_b; dep_c; dep_a] /\
  incl [dep_b; dep_c; dep_a] [dep_a; dep_b; dep_c].
Proof.
  split; [reflexivity|].
  apply (proj2 (@ParseSelection_selects_from_deps ascii_only.strings
                  [dep_a; dep_b; dep_c]) "2-3,a*").
  reflexivity.
Defined.

Lemma number_clause_spec_witness :
  @ParseSelection_loop ascii_only.strings [" 5 "] [dep_a; dep_b; dep_c] []
    = Err (ErrNumberOutOfRange 5 3) /\
  exists d,
    nth_error [dep_a; dep_b; dep_c] (Z.to_nat (2 - 1)) = Some d /\
    @ParseSelection_loop ascii_only.strings [" 2 "] [dep_a; dep_b; dep_c] [dep_a]
    = @ParseSelection_loop ascii_only.strings [] [dep_a; dep_b; dep_c]
        (if containsDependency [dep_a] d then [dep_a] else [dep_a] ++ [d]).
Proof.
  split.
  - apply (proj1 (@number_clause_spec ascii_only.strings " 5 " []
                    [dep_a; dep_b; dep_c] [] 5 eq_refl eq_refl)).
    right. reflexivity.
  - apply (proj2 (@number_clause_spec ascii_only.strings " 2 " []
                    [dep_a; dep_b; dep_c] [dep_a] 2 eq_refl eq_refl)).
    split; discriminate.
Defined.

Lemma pattern_clause_spec_witness :
  unique_paths [dep_a; dep_b; dep_c] /\
  @ParseSelection_loop ascii_only.strings ["/"] [dep_a; dep_b; dep_c] [dep_b]
    = Ok [dep_b; dep_a; dep_c] /\
  @ParseSelection_loop ascii_only.strings ["b/"] [dep_a; dep_b; dep_c] [dep_b]
    = Err (ErrNoPatternMatch "b/").
Proof.
  split; [exact abc_unique_paths|]. split.
  - rewrite (@pattern_clause_spec ascii_only.strings "/" []
               [dep_a; dep_b; dep_c] [dep_b] eq_refl eq_refl abc_unique_paths).
    reflexivity.
  - rewrite (@pattern_clause_spec ascii_only.strings "b/" []
               [dep_a; dep_b; dep_c] [dep_b] eq_refl eq_refl abc_unique_paths).
    reflexivity.
Defined.

Lemma empty_clause_selects_all_witness :
  unique_paths [dep_a; dep_b; dep_c] /\
  @ParseSelection_loop ascii_only.strings [""; ""] [dep_a; dep_b; dep_c] []
    = @ParseSelection_loop ascii_only.strings [""] [dep_a; dep_b; dep_c]
        [dep_a; dep_b; dep_c].
Proof.
  split; [exact abc_unique_paths|].
  apply (@empty_clause_selects_all ascii_only.strings "" [""]
           [dep_a; dep_b; dep_c] eq_refl abc_unique_paths).
  discriminate.
Defined.

(** Empty clauses at work: a leading or a trailing comma selects what is
    not selected yet; in [","] the first clause selects everything and the
    second, finding nothing left to select, is rejected. *)
Example ParseSelection_comma :
  @ParseSelection ascii_only.strings ",1" [dep_a; dep_b; dep_c]
    = Ok [dep_a; dep_b; dep_c] /\
  @ParseSelection ascii_only.strings "2," [dep_a; dep_b; dep_c]
    = Ok [dep_b; dep_a; dep_c] /\
  @ParseSelection ascii_only.strings "," [dep_a; dep_b; dep_c]
    = Err (ErrNoPatternMatch "").
Proof. repeat split. Qed.

(* ----------------------------------------------------------------- *)
(** ** Selections are never empty *)

Section NonEmptySelections.
Context `{UnicodeStrings}.

Lemma genSplit_not_nil (fuel : nat) (s sep : string) :
  strings.genSplit fuel s sep <> [].
Proof.
  destruct fuel; simpl; [discriminate|].
  destruct (strings.index_opt s sep); discriminate.
Qed.

Lemma parseRange_not_nil (part : string) (deps r : list Dependency) :
  parseRange part deps = Ok r -> r <> [].
Proof.
  unfold parseRange.
  destruct (strings.Split part "-") as [|t0 [|t1 [|t2 ts]]]; try discriminate.
  destruct (strconv.Atoi (TrimSpace t0)) as [start|]; [|discriminate].
  destruct (strconv.Atoi (TrimSpace t1)) as [stop|]; [|discriminate].
  destruct ((start <? 1) || (stop >? len deps) || (start >? stop)) eqn:E;
    [discriminate|].
  apply orb_false_iff in E as [E E3]. apply orb_false_iff in E as [E1 E2].
  unfold len in E2. rewrite parseRange_loop_slice by lia.
  intros [= <-] Hnil. apply (f_equal (@length Dependency)) in Hnil.
  simpl in Hnil. rewrite length_firstn, length_skipn in Hnil. lia.
Qed.

(** When [matchPattern] reports a match, it has appended a record. *)
Lemma matchPattern_matched_grows (pattern : string) (deps selected : list Dependency)
    (matched : bool) :
  fst (matchPattern pattern deps selected matched) = true ->
  matched = true \/ snd (matchPattern pattern deps selected matched) <> selected.
Proof.
  revert selected matched.
  induction deps as [|d deps IH]; intros selected matched; simpl.
  - now left.
  - destruct (matchesPattern (ToLower (Path d)) pattern); [|apply IH].
    destruct (containsDependency selected d); simpl; [apply IH|].
    intros _. right.
    destruct (matchPattern_grows pattern deps (selected ++ [d]) true)
      as (added & E & _).
    rewrite E, <- app_assoc. intros Hsel.
    apply (f_equal (@length Dependency)) in Hsel.
    rewrite length_app in Hsel. simpl in Hsel. lia.
Qed.

Lemma ParseSelection_loop_not_nil (parts : list string)
    (deps selected r : list Dependency) :
  parts <> [] \/ selected <> [] ->
  ParseSelection_loop parts deps selected = Ok r ->
  r <> [].
Proof.
  intros Hstart Hr.
  assert (Hgrow : forall parts' selected',
             selected' <> [] ->
             ParseSelection_loop parts' deps selected' = Ok r -> r <> []).
  { intros parts' selected' Hne Hloop.
    apply ParseSelection_loop_grows in Hloop as (added & -> & _).
    destruct selected'; [contradiction | discriminate]. }
  destruct selected as [|d0 selected]; [|eapply Hgrow; [|exact Hr]; discriminate].
  destruct parts as [|part rest]; [destruct Hstart; contradiction|].
  cbn [ParseSelection_loop] in Hr.
  destruct (strings.Contains (TrimSpace part) "-").
  - destruct (parseRange (TrimSpace part) deps) as [rangeDeps|e] eqn:Hrange;
      [|discriminate].
    apply parseRange_not_nil in Hrange.
    eapply Hgrow; [|exact Hr]. simpl. exact Hrange.
  - destruct (strconv.Atoi (TrimSpace part)) as [num|].
    + destruct ((num <? 1) || (num >? len deps)); [discriminate|].
      destruct (nth_error deps (Z.to_nat (num - 1))) as [d|]; [|discriminate].
      simpl in Hr. eapply Hgrow; [|exact Hr]. discriminate.
    + pose proof (matchPattern_matched_grows (TrimSpace part) deps [] false) as Hm.
      destruct (matchPattern (TrimSpace part) deps [] false) as [matched selected'].
      destruct matched; simpl in Hr; [|discriminate].
      destruct (Hm eq_refl) as [Hf|Hne]; [discriminate|].
      eapply Hgrow; [|exact Hr]. exact Hne.
Qed.

(** X10.  From a non-empty list [ParseSelection] never returns an empty
    selection: an input either is rejected or selects at least one record.
    (So inside [Select], which returns at once on an empty list, the branch
    "No dependencies matched your selection" is never taken.) *)
Theorem ParseSelection_not_empty (input : string) (deps r : list Dependency) :
  deps <> [] ->
  ParseSelection input deps = Ok r ->
  r <> [].
Proof.
  intros Hdeps. unfold ParseSelection.
  destruct (ToLower (TrimSpace input) =? "all")%string.
  - now intros [= <-].
  - apply ParseSelection_loop_not_nil. left. apply genSplit_not_nil.
Qed.

End NonEmptySelections.

Lemma ParseSelection_not_empty_witness :
  [dep_a; dep_b; dep_c] <> [] /\
  @ParseSelection ascii_only.strings "c*" [dep_a; dep_b; dep_c] = Ok [dep_c] /\
  ([dep_c] = [] -> False).
Proof.
  split; [discriminate|]. split; [reflexivity|].
  apply (@ParseSelection_not_empty ascii_only.strings "c*" [dep_a; dep_b; dep_c]).
  - discriminate.
  - reflexivity.
Defined.

(* ----------------------------------------------------------------- *)
(** ** [Select]: confirmation, and what a result can be *)

Section SelectMore.
Context {W : Type} `{UnicodeStrings} `{UIInterface W} `{Stdout W}.

(** X11.  A round of the loop whose input parses to a selection shows the
    selection and asks for confirmation: on a yes the loop ends with the
    selection as its result; on a no it says so and prompts again, with
    nothing kept from the declined selection. *)
Theorem Select_loop_confirmation (deps : list Dependency) (fuel : nat)
    (w w1 w2 : W) (input : string) (selected : list Dependency) (yes : bool) :
  deps <> [] ->
  ui_ReadInput prompt w = ((input, None), w1) ->
  TrimSpace input <> "" ->
  ParseSelection (TrimSpace input) deps = Ok selected ->
  ui_Confirm "Proceed with these selected dependencies?"
    (ui_PrintDependencies selected ""
       (ui_Success "Selected %d dependencies:" [ArgInt (len selected)] w1))
    = (yes, w2) ->
  Select_loop (S fuel) deps w
  = if yes then Some (accepted selected, w2)
    else Select_loop fuel deps (ui_Info "Let's try again..." [] w2).
Proof.
  unfold prompt. intros Hdeps Hread Hne Hparse Hconfirm.
  cbn [Select_loop]. rewrite Hread.
  apply String.eqb_neq in Hne. rewrite Hne, Hparse.
  assert (Hsel : selected <> []).
  { unfold ParseSelection in Hparse.
    destruct (ToLower (TrimSpace (TrimSpace input)) =? "all")%string.
    - now injection Hparse as <-.
    - eapply ParseSelection_loop_not_nil; [|exact Hparse].
      left. apply genSplit_not_nil. }
  replace (len selected =? 0) with false.
  - rewrite Hconfirm. now destruct yes.
  - symmetry. apply Z.eqb_neq. unfold len.
    destruct selected; [contradiction | simpl; lia].
Qed.

Lemma Select_loop_result (fuel : nat) (deps : list Dependency) (w w' : W)
    (r : SelectionResult) :
  Select_loop fuel deps w = Some (r, w') ->
  incl (Selected r) deps /\
  (Cancelled r = true -> Selected r = [] /\ Error r = None) /\
  (forall e, Error r = Some e ->
     Selected r = [] /\ Cancelled r = false /\ exists e', e = ErrReadingInput e').
Proof.
  revert w. induction fuel as [|fuel IH]; intros w; cbn [Select_loop];
    [discriminate|].
  destruct (ui_ReadInput "Select dependencies to update" w) as [[input err] w1].
  destruct err as [e|].
  { intros [= <- _]. simpl. split; [intros x []|]. split; [discriminate|].
    intros e0 [= <-]. repeat split. now exists e. }
  destruct (TrimSpace input =? "")%string.
  { intros [= <- _]. simpl. split; [intros x []|]. split; [now split|].
    discriminate. }
  destruct (ParseSelection (TrimSpace input) deps) as [selected|e] eqn:Hparse;
    [|apply IH].
  destruct (len selected =? 0); [apply IH|].
  destruct (ui_Confirm _ _) as [[|] w2]; [|apply IH].
  intros [= <- _]. simpl. split; [|split; discriminate].
  pose proof (ParseSelection_loop_grows) as Hgrow.
  unfold ParseSelection in Hparse.
  destruct (ToLower (TrimSpace (TrimSpace input)) =? "all")%string.
  - injection Hparse as <-. apply incl_refl.
  - apply Hgrow in Hparse as (added & -> & Hincl). exact Hincl.
Qed.

(** X12.  Whatever [Select] returns, the selected records are records of the
    list it was given, and the three outcomes exclude each other: a
    cancelled result has no selection and no error, and a result with an
    error -- always a wrapped read error -- has no selection and is not
    cancelled. *)
Theorem Select_result (fuel : nat) (deps : list Dependency)
    (includeIndirect : bool) (w w' : W) (r : SelectionResult) :
  Select fuel deps includeIndirect w = Some (r, w') ->
  incl (Selected r) deps /\
  (Cancelled r = true -> Selected r = [] /\ Error r = None) /\
  (forall e, Error r = Some e ->
     Selected r = [] /\ Cancelled r = false /\ exists e', e = ErrReadingInput e').
Proof.
  unfold Select. destruct (len deps =? 0).
  - intros [= <- _]. simpl. split; [intros x []|]. split; discriminate.
  - apply Select_loop_result.
Qed.

End SelectMore.

Lemma Select_loop_confirmation_witness :
  (exists w2,
     @Select_loop _ ascii_only.strings script.ui 1 [dep_a; dep_b; dep_c]
       (script.start [("1", None)] [true] [])
     = Some (accepted [dep_a], w2)) /\
  (exists w2,
     @Select_loop _ ascii_only.strings script.ui 2 [dep_a; dep_b; dep_c]
       (script.start [("1", None); ("", None)] [false] [])
     = @Select_loop _ ascii_only.strings script.ui 1 [dep_a; dep_b; dep_c]
         (@ui_Info _ script.ui "Let's try again..." [] w2)).
Proof.
  split.
  - eexists.
    eapply (@Select_loop_confirmation script.World ascii_only.strings script.ui
              [dep_a; dep_b; dep_c] 0 (script.start [("1", None)] [true] []))
      with (input := "1") (selected := [dep_a]) (yes := true).
    + discriminate.
    + reflexivity.
    + discriminate.
    + reflexivity.
    + reflexivity.
  - eexists.
    eapply (@Select_loop_confirmation script.World ascii_only.strings script.ui
              [dep_a; dep_b; dep_c] 1
              (script.start [("1", None); ("", None)] [false] []))
      with (input := "1") (selected := [dep_a]) (yes := false).
    + discriminate.
    + reflexivity.
    + discriminate.
    + reflexivity.
    + reflexivity.
Defined.

Lemma Select_result_witness :
  incl (Selected (accepted [dep_b])) [dep_a; dep_b; dep_c] /\
  (Cancelled (accepted [dep_b]) = true ->
   Selected (accepted [dep_b]) = [] /\ Error (accepted [dep_b]) = None) /\
  (forall e, Error (accepted [dep_b]) = Some e ->
     Selected (accepted [dep_b]) = [] /\ Cancelled (accepted [dep_b]) = false /\
     exists e', e = ErrReadingInput e').
Proof.
  eapply (@Select_result script.World ascii_only.strings script.ui script.stdout
            2 [dep_a; dep_b; dep_c] false
            (script.start [("x", None); ("2", None)] [true] [])).
  reflexivity.
Defined.

(* ----------------------------------------------------------------- *)
(** ** The update orchestrator and the answers of the runner *)

Import updater app.

Lemma result_of_app (outs1 outs2 : list (dependency.Dependency * option error)) :
  result_of (outs1 ++ outs2)
  = {| Updated := Updated (result_of outs1) ++ Updated (result_of outs2);
       Failed := Failed (result_of outs1) ++ Failed (result_of outs2);
       Success := Success (result_of outs1) && Success (result_of outs2) |}.
Proof.
  unfold result_of, updated_of, failed_of, all_succeeded. simpl.
  now rewrite !flat_map_app, forallb_app.
Qed.


Lemma all_succeeded_failed_of (outs : list (dependency.Dependency * option error)) :
  all_succeeded outs = (len (failed_of outs) =? 0).
Proof.
  induction outs as [|[d [e|]] outs IH]; simpl;
    [reflexivity | reflexivity | exact IH].
Qed.

Section UpdaterOutcomes.
Context {W : Type} `{CommandRunner W}.

Lemma outcomes_fst (deps : list dependency.Dependency) (verbose : bool) (w : W) :
  map fst (fst (outcomes deps verbose w)) = deps.
Proof.
  revert w. induction deps as [|d deps IH]; intros w; simpl; [reflexivity|].
  destruct (Run "go" ["get"; "-u"; dependency.Path d] verbose w) as [err w1].
  specialize (IH w1). destruct (outcomes deps verbose w1) as [outs w2].
  simpl in *. now rewrite IH.
Qed.

Lemma outcomes_app (deps1 deps2 : list dependency.Dependency) (verbose : bool) (w : W) :
  outcomes (deps1 ++ deps2) verbose w
  = (fst (outcomes deps1 verbose w)
       ++ fst (outcomes deps2 verbose (snd (outcomes deps1 verbose w))),
     snd (outcomes deps2 verbose (snd (outcomes deps1 verbose w)))).
Proof.
  revert w. induction deps1 as [|d deps1 IH]; intros w; simpl.
  - now destruct (outcomes deps2 verbose w).
  - destruct (Run "go" ["get"; "-u"; dependency.Path d] verbose w) as [err w1].
    rewrite IH. destruct (outcomes deps1 verbose w1) as [outs1 w2]. reflexivity.
Qed.

(** The loop of [UpdateDependencies] appends to its two lists what the
    answers of the runner say. *)
Lemma UpdateDependencies_loop_outcomes (deps : list dependency.Dependency)
    (verbose : bool) (result : UpdateResult) (w : W) :
  UpdateDependencies_loop deps verbose result w
  = ({| Updated := Updated result ++ updated_of (fst (outcomes deps verbose w));
        Failed := Failed result ++ failed_of (fst (outcomes deps verbose w));
        Success := Success result |},
     snd (outcomes deps verbose w)).
Proof.
  revert result w. induction deps as [|d deps IH]; intros result w; simpl.
  - rewrite !app_nil_r. now destruct result.
  - destruct (Run "go" ["get"; "-u"; dependency.Path d] verbose w) as [[e|] w1];
      rewrite IH; destruct (outcomes deps verbose w1) as [outs w2]; simpl;
      now rewrite <- app_assoc.
Qed.

Lemma UpdateDependencies_result_of (deps : list dependency.Dependency)
    (verbose : bool) (w : W) :
  UpdateDependencies deps verbose w
  = (result_of (fst (outcomes deps verbose w)), snd (outcomes deps verbose w)).
Proof.
  unfold UpdateDependencies. rewrite UpdateDependencies_loop_outcomes. simpl.
  unfold result_of. now rewrite all_succeeded_failed_of.
Qed.

(** X13.  [UpdateDependencies] reports what the runner answered: the
    commands are run one after the other, each in the world the one before
    left; [Updated] holds the records whose command returned no error,
    [Failed] the others, each with the very error of its command, both in
    the order of the list; [Success] says that no command failed. *)
Theorem UpdateDependencies_reports_outcomes (deps : list dependency.Dependency)
    (verbose : bool) (w : W) :
  UpdateDependencies deps verbose w
  = ({| Updated := updated_of (fst (outcomes deps verbose w));
        Failed := failed_of (fst (outcomes deps verbose w));
        Success := all_succeeded (fst (outcomes deps verbose w)) |},
     snd (outcomes deps verbose w)) /\
  map fst (fst (outcomes deps verbose w)) = deps.
Proof.
  split; [apply UpdateDependencies_result_of | apply outcomes_fst].
Qed.

(** X14.  Updating a list in two batches gives what one batch gives:
    [UpdateDependencies (deps1 ++ deps2)] is [UpdateDependencies deps1]
    followed by [UpdateDependencies deps2] in the world the first batch left,
    the lists appended and [Success] the conjunction. *)
Theorem UpdateDependencies_batches (deps1 deps2 : list dependency.Dependency)
    (verbose : bool) (w : W) :
  UpdateDependencies (deps1 ++ deps2) verbose w
  = let '(r1, w1) := UpdateDependencies deps1 verbose w in
    let '(r2, w2) := UpdateDependencies deps2 verbose w1 in
    ({| Updated := Updated r1 ++ Updated r2;
        Failed := Failed r1 ++ Failed r2;
        Success := Success r1 && Success r2 |}, w2).
Proof.
  rewrite (UpdateDependencies_result_of (deps1 ++ deps2)), outcomes_app.
  rewrite (UpdateDependencies_result_of deps1). cbn beta iota.
  rewrite (UpdateDependencies_result_of deps2). cbn [fst snd].
  now rewrite result_of_app.
Qed.

Section WithProgress.
Context `{Console W}.


Lemma updateWithProgress_merge_singles
    (outs : list (dependency.Dependency * option error)) (finalResult : UpdateResult) :
  fold_left
    (fun finalResult result =>
       {| Updated := Updated finalResult ++ Updated result;
          Failed := Failed finalResult ++ Failed result;
          Success := if negb (Success result) then false else Success finalResult |})
    (map (fun o => result_of [o]) outs) finalResult
  = {| Updated := Updated finalResult ++ updated_of outs;
       Failed := Failed finalResult ++ failed_of outs;
       Success := Success finalResult && all_succeeded outs |}.
Proof.
  revert finalResult.
  induction outs as [|[d [e|]] outs IH]; intros finalResult; simpl.
  - rewrite !app_nil_r, andb_true_r. now destruct finalResult.
  - rewrite IH. simpl. rewrite app_nil_r, andb_false_r. now rewrite <- app_assoc.
  - rewrite IH. simpl. rewrite app_nil_r. now rewrite <- app_assoc.
Qed.


End WithProgress.

(** With a console that shows nothing, the first loop of
    [updateWithProgress] collects the single results of the answers that
    [UpdateDependencies] gets. *)
Lemma updateWithProgress_each_silent (i total : Z)
    (deps : list dependency.Dependency) (verbose : bool)
    (allResults : list UpdateResult) (w : W) :
  @updateWithProgress_each _ goUpdater silent_progress i total deps verbose allResults w
  = (allResults ++ map (fun o => result_of [o]) (fst (outcomes deps verbose w)),
     snd (outcomes deps verbose w)).
Proof.
  revert i allResults w.
  induction deps as [|d deps IH]; intros i allResults w.
  - simpl. now rewrite app_nil_r.
  - cbn [updateWithProgress_each updater_UpdateDependencies goUpdater].
    unfold ProgressBar, silent_progress.
    rewrite UpdateDependencies_result_of. cbn [outcomes].
    destruct (Run "go" ["get"; "-u"; dependency.Path d] verbose w) as [err w1].
    cbn [fst snd]. rewrite IH.
    destruct (outcomes deps verbose w1) as [outs w2]. cbn [fst snd].
    now rewrite <- app_assoc.
Qed.

(** X16.  The progress display apart, updating the records one by one and
    merging the results is updating them in one batch: with a console that
    shows no progress, [updateWithProgress] returns the result and the world
    of [UpdateDependencies]. *)
Theorem updateWithProgress_silent (deps : list dependency.Dependency)
    (verbose : bool) (w : W) :
  @updateWithProgress _ goUpdater silent_progress deps verbose w
  = UpdateDependencies deps verbose w.
Proof.
  unfold updateWithProgress. rewrite updateWithProgress_each_silent.
  cbn [app]. rewrite UpdateDependencies_result_of. f_equal.
  unfold updateWithProgress_merge.
  now rewrite updateWithProgress_merge_singles.
Qed.

End UpdaterOutcomes.

(* ----------------------------------------------------------------- *)
(** ** What [GetUpdatableDependencies] lists *)

Lemma GetUpdatableDependencies_collect (modules : list Module_)
    (acc : list dependency.Dependency) :
  fold_left
    (fun acc module =>
       if mod_Main module then acc
       else if (mod_Version module =? "")%string then acc
       else match mod_Update module with
            | Some (_, newVersion) =>
                acc ++ [ {| Path := mod_Path module;
                            Version := mod_Version module;
                            NewVersion := newVersion;
                            Indirect := mod_Indirect module;
                            HasUpdate := true |} ]
            | None => acc
            end)
    modules acc
  = acc ++ flat_map updatable_of modules.
Proof.
  revert acc. induction modules as [|m modules IH]; intros acc; simpl.
  - now rewrite app_nil_r.
  - rewrite IH. unfold updatable_of at 2.
    destruct (mod_Main m); [reflexivity|].
    destruct (mod_Version m =? "")%string; [reflexivity|].
    destruct (mod_Update m) as [[p v]|]; [|reflexivity].
    now rewrite <- app_assoc.
Qed.

(** X17.  [GetUpdatableDependencies] lists the modules that have an update
    and only them: the result is a reordering of the records made from the
    decoded modules that are not the main module, have a version and carry
    an [Update]; each record is marked [HasUpdate], keeps the module's
    path, version and indirect flag, and has the update's version as its
    [NewVersion]. *)
Theorem GetUpdatableDependencies_lists_updates `{Sorter} (modules : list Module_) :
  sort_Slice_contract ->
  Permutation (GetUpdatableDependencies modules) (flat_map updatable_of modules) /\
  (forall d, In d (GetUpdatableDependencies modules) ->
     HasUpdate d = true /\ Version d <> "" /\
     exists m newPath,
       In m modules /\ mod_Main m = false /\
       mod_Update m = Some (newPath, NewVersion d) /\
       Path d = mod_Path m /\ Version d = mod_Version m /\
       Indirect d = mod_Indirect m) /\
  (forall m newPath newVersion,
     In m modules -> mod_Main m = false -> mod_Version m <> "" ->
     mod_Update m = Some (newPath, newVersion) ->
     In {| Path := mod_Path m; Version := mod_Version m;
           NewVersion := newVersion; Indirect := mod_Indirect m;
           HasUpdate := true |}
        (GetUpdatableDependencies modules)).
Proof.
  intros Hsort. unfold GetUpdatableDependencies.
  rewrite GetUpdatableDependencies_collect. cbn [app].
  assert (Hperm : Permutation (sortDependencies (flat_map updatable_of modules))
                    (flat_map updatable_of modules))
    by (symmetry; apply Hsort).
  split; [exact Hperm|]. split.
  - intros d Hd. apply (Permutation_in _ Hperm) in Hd.
    apply in_flat_map in Hd as (m & Hm & Hd). unfold updatable_of in Hd.
    destruct (mod_Main m) eqn:Hmain; [contradiction|].
    destruct (String.eqb_spec (mod_Version m) "") as [|Hv]; [contradiction|].
    destruct (mod_Update m) as [[p v]|] eqn:Hu; [|contradiction].
    destruct Hd as [<-|[]]. simpl.
    split; [reflexivity|]. split; [exact Hv|].
    exists m, p. repeat split; assumption.
  - intros m p v Hm Hmain Hv Hu.
    apply (Permutation_in _ (Permutation_sym Hperm)).
    apply in_flat_map. exists m. split; [exact Hm|].
    unfold updatable_of. rewrite Hmain, Hu.
    apply String.eqb_neq in Hv. rewrite Hv. now left.
Qed.

Lemma GetUpdatableDependencies_lists_updates_witness :
  @sort_Slice_contract insertion.sorter /\
  Permutation (@GetUpdatableDependencies insertion.sorter example_modules)
    [dep "b/b" true].
Proof.
  split; [exact insertion_sort_contract|].
  exact (proj1 (@GetUpdatableDependencies_lists_updates insertion.sorter
                  example_modules insertion_sort_contract)).
Defined.

(* ----------------------------------------------------------------- *)
(** ** The width of the path column *)

Lemma calculateMaxPathWidth_fold (deps : list dependency.Dependency) (acc : Z) :
  let m := fold_left
             (fun maxWidth dep =>
                let n := Z.of_nat (String.length (Path dep)) in
                if n >? maxWidth then n else maxWidth)
             deps acc in
  acc <= m /\
  (forall d, In d deps -> len_bytes (Path d) <= m) /\
  (m = acc \/ exists d, In d deps /\ m = len_bytes (Path d)).
Proof.
  revert acc. induction deps as [|d deps IH]; intros acc; simpl.
  - split; [lia|]. split; [intros d []|]. now left.
  - specialize (IH (if Z.of_nat (String.length (Path d)) >? acc
                    then Z.of_nat (String.length (Path d)) else acc)).
    simpl in IH. destruct IH as (Hacc & Hall & Hwhich).
    fold (len_bytes (Path d)) in *.
    destruct (Z.gtb_spec (len_bytes (Path d)) acc) as [Hgt|Hle].
    + split; [lia|]. split.
      * intros x [<-|Hx]; [exact Hacc | now apply Hall].
      * right. destruct Hwhich as [->|(x & Hx & ->)].
        -- exists d. split; [now left | reflexivity].
        -- exists x. split; [now right | reflexivity].
    + split; [exact Hacc|]. split.
      * intros x [<-|Hx]; [lia | now apply Hall].
      * destruct Hwhich as [->|(x & Hx & ->)]; [now left|].
        right. exists x. split; [now right | reflexivity].
Qed.

(** X18.  The path column is at least 20 and at most 50 bytes wide, wide
    enough for every path of at most 50 bytes, and never wider than needed:
    its width is 20, 50 or the length of a path of the list. *)
Theorem calculateMaxPathWidth_bounds (deps : list dependency.Dependency) :
  20 <= ui.calculateMaxPathWidth deps <= 50 /\
  (forall d, In d deps ->
     Z.min (len_bytes (Path d)) 50 <= ui.calculateMaxPathWidth deps) /\
  (ui.calculateMaxPathWidth deps = 20 \/
   ui.calculateMaxPathWidth deps = 50 \/
   exists d, In d deps /\ ui.calculateMaxPathWidth deps = len_bytes (Path d)).
Proof.
  unfold ui.calculateMaxPathWidth.
  pose proof (calculateMaxPathWidth_fold deps 20) as (Hacc & Hall & Hwhich).
  simpl in Hacc, Hall, Hwhich.
  set (m := fold_left _ deps 20) in *.
  destruct (Z.gtb_spec m 50) as [Hgt|Hle].
  - split; [lia|]. split; [intros d Hd; lia|]. right. now left.
  - split; [lia|]. split.
    + intros d Hd. specialize (Hall d Hd). lia.
    + destruct Hwhich as [->|(d & Hd & E)]; [now left|].
      right. right. now exists d.
Qed.
(* ----------------------------------------------------------------- *)
(** ** The application *)


Section ApplicationFacts.
Context {W : Type} `{ui.Console W} `{dependency.Manager W} `{selector.Selector W}.

(** [performUpdate] has no error to return. *)
Lemma performUpdate_nil {U : Updater W} (cfg : config.Config)
    (deps : list dependency.Dependency) (w : W) :
  fst (App.performUpdate cfg deps w) = None.
Proof.
  unfold App.performUpdate.
  destruct (updateWithProgress deps (config.Verbose cfg) _) as [result w1].
  destruct (App.runModTidy cfg _) as [err w2].
  reflexivity.
Qed.



Lemma recorded_Info (f : string) (a : list fmt_arg) (w : W) (calls : list recording.Call) :
  @ui.console_Info _ recorded.console f a (w, calls) = (ui.console_Info f a w, calls).
Proof. reflexivity. Qed.

Lemma recorded_Success (f : string) (a : list fmt_arg) (w : W) (calls : list recording.Call) :
  @ui.console_Success _ recorded.console f a (w, calls)
  = (ui.console_Success f a w, calls).
Proof. reflexivity. Qed.

Lemma recorded_Warning (f : string) (a : list fmt_arg) (w : W) (calls : list recording.Call) :
  @ui.console_Warning _ recorded.console f a (w, calls)
  = (ui.console_Warning f a w, calls).
Proof. reflexivity. Qed.


Lemma recorded_PrintDependencies (d : list dependency.Dependency) (t : string)
    (w : W) (calls : list recording.Call) :
  @ui.console_PrintDependencies _ recorded.console d t (w, calls)
  = (ui.console_PrintDependencies d t w, calls).
Proof. reflexivity. Qed.

Lemma recorded_PrintUpdateResult (u t : Z) (h : bool) (w : W)
    (calls : list recording.Call) :
  @ui.console_PrintUpdateResult _ recorded.console u t h (w, calls)
  = (ui.console_PrintUpdateResult u t h w, calls).
Proof. reflexivity. Qed.


Lemma console_Error_recorded (failures : list UpdateError) (w : W)
    (calls : list recording.Call) :
  fold_left
    (fun w failure =>
       @ui.console_Error _ recorded.console "Failed to update %s: %v"
         [ArgString (dependency.Path (updater.Dependency failure));
          ArgError (updater.Error failure)] w)
    failures (w, calls)
  = (fold_left
       (fun w failure =>
          ui.console_Error "Failed to update %s: %v"
            [ArgString (dependency.Path (updater.Dependency failure));
             ArgError (updater.Error failure)] w)
       failures w, calls).
Proof.
  revert w. induction failures as [|f failures IH]; intros w; simpl;
    [reflexivity | apply IH].
Qed.


Section WithRunner.
Context `{CommandRunner W}.

Lemma updateWithProgress_recorded (deps : list dependency.Dependency)
    (verbose : bool) (w : W) (calls : list recording.Call) :
  @updateWithProgress _ (@goUpdater _ recording.runner)
     (@App.progress_console _ recorded.console) deps verbose (w, calls)
  = (fst (@updateWithProgress _ goUpdater App.progress_console deps verbose w),
     (snd (@updateWithProgress _ goUpdater App.progress_console deps verbose w),
      calls ++ map (go_get verbose) deps)).
Proof.
  change (@App.progress_console (W * list recording.Call) recorded.console)
    with (@recording.console W App.progress_console).
  unfold updateWithProgress. rewrite updateWithProgress_each_recording.
  destruct (@updateWithProgress_each _ goUpdater App.progress_console 0
              (len deps) deps verbose [] w) as [allResults w1].
  reflexivity.
Qed.

Lemma runModTidy_recorded (cfg : config.Config) (w : W) (calls : list recording.Call) :
  @App.runModTidy _ recorded.console (@goUpdater _ recording.runner) cfg (w, calls)
  = (fst (@App.runModTidy _ _ goUpdater cfg w),
     (snd (@App.runModTidy _ _ goUpdater cfg w),
      calls ++ [go_mod_tidy (config.Verbose cfg)])).
Proof.
  unfold App.runModTidy. rewrite recorded_Info.
  cbn [updater_RunModTidy goUpdater]. unfold RunModTidy.
  unfold Run at 1, recording.runner.
  now destruct (Run "go" ["mod"; "tidy"] (config.Verbose cfg) _).
Qed.

Lemma performUpdate_recorded (cfg : config.Config)
    (deps : list dependency.Dependency) (w : W) (calls : list recording.Call) :
  @App.performUpdate _ recorded.console (@goUpdater _ recording.runner)
     cfg deps (w, calls)
  = (None,
     (snd (@App.performUpdate _ _ goUpdater cfg deps w),
      calls ++ map (go_get (config.Verbose cfg)) deps
            ++ [go_mod_tidy (config.Verbose cfg)])).
Proof.
  unfold App.performUpdate.
  rewrite recorded_Info, updateWithProgress_recorded.
  destruct (@updateWithProgress _ goUpdater App.progress_console deps
              (config.Verbose cfg) (ui.console_Info "Updating dependencies..." [] w))
    as [result w1].
  cbn [fst snd].
  rewrite recorded_PrintUpdateResult, console_Error_recorded, runModTidy_recorded.
  destruct (@App.runModTidy _ _ goUpdater cfg _) as [err w2].
  cbn [fst snd]. rewrite <- app_assoc.
  destruct err as [e|]; rewrite ?recorded_Warning, ?recorded_Success;
    destruct (len (Updated result) >? 0); destruct (len (Failed result) >? 0);
    rewrite ?recorded_Warning, ?recorded_Success, ?recorded_Info; reflexivity.
Qed.




(** X19.  [performUpdate] never fails, and it always tidies: it runs
    [go get -u] for every record of the list, in order, and then
    [go mod tidy] exactly once, whether updates failed or not; a failure of
    an update or of [go mod tidy] is shown on the console and not returned. *)
Theorem performUpdate_updates_then_tidies (cfg : config.Config)
    (deps : list dependency.Dependency) (w : W) (calls : list recording.Call) :
  fst (@App.performUpdate _ _ goUpdater cfg deps w) = None /\
  @App.performUpdate _ recorded.console (@goUpdater _ recording.runner)
     cfg deps (w, calls)
  = (None,
     (snd (@App.performUpdate _ _ goUpdater cfg deps w),
      calls ++ map (go_get (config.Verbose cfg)) deps
            ++ [go_mod_tidy (config.Verbose cfg)])).
Proof.
  split; [apply performUpdate_nil | apply performUpdate_recorded].
Qed.

End WithRunner.

Lemma selectDependencies_Err (cfg : config.Config)
    (deps : list dependency.Dependency) (w w' : W) (e : error) :
  App.selectDependencies cfg deps w = Some (Err e, w') ->
  config.Selective cfg = true /\
  exists r,
    selector_Select deps (config.ShouldIncludeIndirect cfg) w = Some (r, w') /\
    selector.Error r = Some e.
Proof.
  unfold App.selectDependencies.
  destruct (config.Selective cfg); simpl; [|discriminate].
  destruct (selector_Select deps (config.ShouldIncludeIndirect cfg) w)
    as [[r w1]|]; [|discriminate].
  destruct (selector.Error r) as [e0|] eqn:He.
  - intros [= <- <-]. split; [reflexivity|]. now exists r.
  - destruct (Cancelled r); discriminate.
Qed.

(** X20.  [Run] returns an error in two cases only: listing the updates
    failed -- the manager's error is returned as it is -- or, in selective
    mode, the selection came back with an error -- which is returned
    wrapped.  Updates that fail and a [go mod tidy] that fails never make
    [Run] fail. *)
Theorem Run_errors {U : Updater W} (cfg : config.Config) (w w' : W)
    (e : App.run_error) :
  App.Run cfg w = Some (Some e, w') ->
  (exists e0 w0,
     e = App.Plain e0 /\ manager_GetUpdatableDependencies w0 = (Err e0, w')) \/
  (exists e0 deps w0 r,
     e = App.ErrSelectionFailed e0 /\ config.Selective cfg = true /\
     selector_Select deps (config.ShouldIncludeIndirect cfg) w0 = Some (r, w') /\
     selector.Error r = Some e0).
Proof.
  unfold App.Run.
  match goal with
  | |- context [manager_GetUpdatableDependencies ?x] => set (wp := x)
  end.
  destruct (manager_GetUpdatableDependencies wp) as [[allDeps|e0] w2] eqn:Hlist.
  2:{ intros [= <- <-]. left. now exists e0, wp. }
  destruct (len allDeps =? 0); [discriminate|].
  destruct (len (manager_FilterDependencies allDeps _) =? 0); [discriminate|].
  destruct (App.selectDependencies cfg _ _) as [[[selected|e0] w3]|] eqn:Hsel;
    [| |discriminate].
  - destruct (len selected =? 0); [discriminate|].
    destruct (config.List cfg); [discriminate|].
    destruct (config.Interactive cfg && negb (config.Selective cfg)).
    + destruct (ui.console_Confirm _ _) as [ok w4].
      destruct ok; [|discriminate]. cbn [negb].
      pose proof (performUpdate_nil cfg selected w4) as Hnil.
      destruct (App.performUpdate cfg selected w4) as [err w5].
      cbn [fst] in Hnil. subst err. discriminate.
    + pose proof (performUpdate_nil cfg selected
                    (ui.console_Debug "Selected %d dependencies for update"
                       [ArgInt (len selected)] w3)) as Hnil.
      destruct (App.performUpdate cfg selected _) as [err w5].
      cbn [fst] in Hnil. subst err. discriminate.
  - intros [= <- <-]. right.
    apply selectDependencies_Err in Hsel as (Hselective & r & Hr & He).
    eexists e0, _, _, r. repeat split; eassumption.
Qed.

End ApplicationFacts.

Lemma Run_errors_witness :
  (exists e0 w0,
     App.Plain (ErrExternal "no network") = App.Plain e0 /\
     @manager_GetUpdatableDependencies _ session.manager w0
     = (Err e0,
        session.emit session.EvListUpdates
          (session.emit session.EvHeader
             (session.start (Err (ErrExternal "no network")) [] [] [] None)))) \/
  (exists e0 deps w0 r,
     App.Plain (ErrExternal "no network") = App.ErrSelectionFailed e0 /\
     config.Selective cfg_default = true /\
     @selector_Select _ (session.selector 5) deps
       (config.ShouldIncludeIndirect cfg_default) w0
     = Some (r,
             session.emit session.EvListUpdates
               (session.emit session.EvHeader
                  (session.start (Err (ErrExternal "no network")) [] [] [] None))) /\
     selector.Error r = Some e0).
Proof.
  apply (@Run_errors session.World session.console session.manager
           (session.selector 5) (@goUpdater _ session.runner) cfg_default
           (session.start (Err (ErrExternal "no network")) [] [] [] None)).
  reflexivity.
Defined.

(** The scenario of the specification, end to end: of two listed records,
    one indirect, the default run updates the direct one and tidies; with
    every record selected the update of [b/b] fails, [a/a] is updated all
    the same, [go mod tidy] runs, and [Run] returns no error. *)
Example Run_session :
  option_map (fun out => (fst out, session.commands (session.trace (snd out))))
    (session.Run_app 5 cfg_default
       (session.start (Ok [dep "a/a" false; dep "b/b" true]) [] [] [] None))
  = Some (None, [go_get false (dep "a/a" false); go_mod_tidy false]) /\
  option_map (fun out => (fst out, session.commands (session.trace (snd out))))
    (session.Run_app 5 cfg_select
       (session.start (Ok [dep "a/a" false; dep "b/b" true])
          [("all", None)] [true] ["b/b"] (Some (ErrExternal "exit status 1"))))
  = Some (None, [go_get false (dep "a/a" false); go_get false (dep "b/b" true);
                 go_mod_tidy false]) /\
  option_map (fun out => (fst out, session.commands (session.trace (snd out))))
    (session.Run_app 5 cfg_list
       (session.start (Ok [dep "a/a" false; dep "b/b" true]) [] [] [] None))
  = Some (None, []).
Proof. repeat split. Qed.

(* ----------------------------------------------------------------- *)
(** ** How a record is printed *)

(** X22.  The two printers of a record agree: [String] is the path, an
    ["@"], what [VersionInfo] prints, and [" (indirect)"] for an indirect
    record; and when no update is known -- [HasUpdate] unset or [NewVersion]
    empty -- neither mentions the new version. *)
Theorem Dependency_String_VersionInfo (d : dependency.Dependency) :
  Dependency_String d
  = (Path d ++ "@" ++ VersionInfo d
     ++ (if Indirect d then " (indirect)" else ""))%string /\
  (HasUpdate d = false \/ NewVersion d = "" ->
   VersionInfo d = Version d /\
   Dependency_String d
   = (Path d ++ "@" ++ Version d
      ++ (if Indirect d then " (indirect)" else ""))%string).
Proof.
  unfold Dependency_String, VersionInfo. split.
  - destruct (HasUpdate d && negb (NewVersion d =? "")%string); [|reflexivity].
    now rewrite !append_assoc.
  - intros Hno.
    assert (E : HasUpdate d && negb (NewVersion d =? "")%string = false).
    { destruct Hno as [->| ->]; [reflexivity|].
      simpl. apply andb_false_r. }
    now rewrite E.
Qed.

Example Dependency_String_examples :
  Dependency_String (dep "a/a" true) = "a/a@v1.0.0 → v1.1.0 (indirect)" /\
  Dependency_String
    {| Path := "a/a"; Version := "v1.0.0"; NewVersion := ""; Indirect := false;
       HasUpdate := true |} = "a/a@v1.0.0".
Proof. split; reflexivity. Qed.
